(** * Station uptime: a shallow embedding of [station_uptime.py]

    The program reads a text document describing charging stations, the
    chargers they own and availability reports per charger, and prints one
    uptime percentage per station.

    Modelling choices.
    - Python [int] is unbounded: [Z].
    - A Python [str] is a [string]; a character is a code point below 256
      (documents with larger code points are outside the model).
    - [dict] is [gmap], [set] is [gset]; the iteration order of a Python set
      is unspecified, the model iterates over [elements] and the development
      proves that the results do not depend on that order.
    - Exceptions are an explicit error type; a function that may raise
      returns [result]. *)

From stdpp Require Import gmap strings list sorting pretty.
From Stdlib Require Import Ascii ZArith Lia.

Open Scope Z_scope.

(** ** Python string primitives used by the parser *)

Module Py.

Definition code (c : ascii) : N := N_of_ascii c.

(** [str.isspace] on code points below 256: TAB..CR, FS..US, space, NEL and
    NBSP.  [str.strip] and [str.split] without arguments use this class. *)
Definition isspace (c : ascii) : bool :=
  let n := code c in
  ((9 <=? n) && (n <=? 13) || (28 <=? n) && (n <=? 32)
   || (n =? 133) || (n =? 160))%N.

Fixpoint lstrip (s : string) : string :=
  match s with
  | EmptyString => EmptyString
  | String c s' => if isspace c then lstrip s' else s
  end.

Fixpoint rstrip (s : string) : string :=
  match s with
  | EmptyString => EmptyString
  | String c s' =>
      match rstrip s' with
      | EmptyString => if isspace c then EmptyString else String c EmptyString
      | r => String c r
      end
  end.

Definition strip (s : string) : string := rstrip (lstrip s).

(** [s.split()]: the maximal runs of non-whitespace characters. *)
Fixpoint split (s : string) : list string :=
  match s with
  | EmptyString => []
  | String c s' =>
      if isspace c then split s'
      else
        match s' with
        | EmptyString => [String c EmptyString]
        | String c' _ =>
            if isspace c' then String c EmptyString :: split s'
            else
              match split s' with
              | w :: ws => String c w :: ws
              | [] => [String c EmptyString]
              end
        end
  end.

Definition startswith (s p : string) : bool := String.prefix p s.

(** [str.lower] on code points below 256: A-Z and the Latin-1 capitals
    (except the multiplication sign) move up by 32. *)
Definition lower_char (c : ascii) : ascii :=
  let n := code c in
  if ((65 <=? n) && (n <=? 90)
      || (192 <=? n) && (n <=? 222) && negb (n =? 215))%N
  then ascii_of_N (n + 32) else c.

Fixpoint lower (s : string) : string :=
  match s with
  | EmptyString => EmptyString
  | String c s' => String (lower_char c) (lower s')
  end.

Definition digit_val (c : ascii) : option Z :=
  let n := code c in
  if ((48 <=? n) && (n <=? 57))%N then Some (Z.of_N n - 48) else None.

(** The digit part of an integer literal: decimal digits, with single
    underscores allowed between two digits.  [prev] tells whether the
    previous character was a digit. *)
Fixpoint int_digits (s : string) (acc : Z) (prev : bool) : option Z :=
  match s with
  | EmptyString => if prev then Some acc else None
  | String c s' =>
      match digit_val c with
      | Some d => int_digits s' (10 * acc + d) true
      | None =>
          if bool_decide (c = "_"%char) && prev then int_digits s' acc false
          else None
      end
  end.

(** The number of digit characters of a literal; underscores and the sign
    do not count. *)
Fixpoint digit_count (s : string) : Z :=
  match s with
  | EmptyString => 0
  | String c s' =>
      match digit_val c with
      | Some _ => 1 + digit_count s'
      | None => digit_count s'
      end
  end.

(** [sys.get_int_max_str_digits()]: the interpreter's default, which the
    program does not change. *)
Definition max_str_digits : Z := 4300.

(** The literal after its sign: [ValueError] above the digit limit,
    otherwise the digits are read. *)
Definition int_unsigned (s : string) : option Z :=
  if bool_decide (digit_count s > max_str_digits) then None
  else int_digits s 0 false.

(** [int(tok)] in base 10; [None] stands for [ValueError]. *)
Definition int (tok : string) : option Z :=
  match strip tok with
  | String "+" s => int_unsigned s
  | String "-" s => Z.opp <$> int_unsigned s
  | s => int_unsigned s
  end.

(** [str(n)] for an integer.  The program only prints integers that [int]
    accepted or percentages, which are below the digit limit of [str]. *)
Definition str (n : Z) : string := pretty n.

(** Iterating over a text file opened with universal newlines: a line ends
    at LF, CR LF or CR, each read as LF and kept at the end of the line. *)
Definition LF : ascii := ascii_of_N 10.
Definition CR : ascii := ascii_of_N 13.

Definition end_line (cur : string) : string := cur +:+ String LF EmptyString.

Fixpoint readlines_go (text cur : string) : list string :=
  match text with
  | EmptyString =>
      match cur with EmptyString => [] | _ => [cur] end
  | String c rest =>
      if bool_decide (c = LF) then end_line cur :: readlines_go rest EmptyString
      else if bool_decide (c = CR) then
        match rest with
        | String c' rest' =>
            if bool_decide (c' = LF)
            then end_line cur :: readlines_go rest' EmptyString
            else end_line cur :: readlines_go rest EmptyString
        | EmptyString => end_line cur :: readlines_go rest EmptyString
        end
      else readlines_go rest (cur +:+ String c EmptyString)
  end.

Definition readlines (text : string) : list string := readlines_go text EmptyString.

End Py.

(** ** Interval merger ([merge_intervals], lines 77-94) *)

Module Merger.

(** Python compares tuples lexicographically; [norm.sort()] sorts with that
    order.  The order is total and antisymmetric on pairs of integers, so the
    sorted list is unique and any sorting algorithm yields it. *)
Definition tuple_le (a b : Z * Z) : Prop :=
  a.1 < b.1 ∨ (a.1 = b.1 ∧ a.2 ≤ b.2).

#[global] Instance tuple_le_dec : RelDecision tuple_le.
Proof. intros a b. unfold tuple_le. apply _. Defined.

Definition py_sort (l : list (Z * Z)) : list (Z * Z) := merge_sort tuple_le l.

(** The sweep of lines 86-93: [cs], [ce] are the current open interval,
    [merged] the list built so far by [merged.append]. *)
Fixpoint sweep (rest : list (Z * Z)) (cs ce : Z) (merged : list (Z * Z))
  : list (Z * Z) :=
  match rest with
  | [] => merged ++ [(cs, ce)]
  | (s, e) :: rest' =>
      if bool_decide (s ≤ ce) then
        if bool_decide (e > ce) then sweep rest' cs e merged
        else sweep rest' cs ce merged
      else sweep rest' s e (merged ++ [(cs, ce)])
  end.

Definition merge_intervals (intervals : list (Z * Z)) : list (Z * Z) :=
  match intervals with
  | [] => []
  | _ =>
      let norm := filter (λ p : Z * Z, p.2 > p.1) intervals in
      match norm with
      | [] => []
      | _ =>
          match py_sort norm with
          | [] => []
          | (cs, ce) :: rest => sweep rest cs ce []
          end
      end
  end.

(** ** [clipped_total], lines 96-103 *)

Definition clipped_total (intervals : list (Z * Z)) (clip_start clip_end : Z) : Z :=
  fold_left (λ total p,
      let a := Z.max p.1 clip_start in
      let b := Z.min p.2 clip_end in
      if bool_decide (b > a) then total + (b - a) else total)
    intervals 0.

End Merger.

(** ** Exceptions *)

Inductive exn : Type :=
  | InvalidStationId (ln : string)
  | InvalidChargerId (ln : string)
  | MultipleStations (cid : Z)
  | InvalidReportFields (ln : string)
  | InvalidNumericField (ln : string)
  | InvalidUpFlag (ln : string)
  | OSError (msg : string).

(** The text of [str(e)], as built by the f-strings of the source. *)
Definition message (e : exn) : string :=
  match e with
  | InvalidStationId ln => "Invalid station line (station id): " +:+ ln
  | InvalidChargerId ln => "Invalid charger id on station line: " +:+ ln
  | MultipleStations cid =>
      "Charger " +:+ Py.str cid +:+ " appears under multiple stations."
  | InvalidReportFields ln => "Invalid report line (need 4 fields): " +:+ ln
  | InvalidNumericField ln => "Invalid numeric field in report line: " +:+ ln
  | InvalidUpFlag ln => "Invalid up flag (must be true/false): " +:+ ln
  | OSError msg => msg
  end.

Inductive result (A : Type) : Type :=
  | Ok (a : A)
  | Err (e : exn).
Arguments Ok {A} a.
Arguments Err {A} e.

Definition rbind {A B} (r : result A) (k : A → result B) : result B :=
  match r with
  | Ok a => k a
  | Err e => Err e
  end.

Notation "x ←! r ; k" := (rbind r (λ x, k))
  (at level 20, r at level 100, k at level 200, only parsing, right associativity).

Definition is_ok {A} (r : result A) : Prop :=
  match r with Ok _ => True | Err _ => False end.

(** ** Document parser ([parse_input], lines 5-75) *)

Module Parser.

Definition report : Type := Z * Z * bool.

(** The local variables of [parse_input] that survive an iteration. *)
Record pstate : Type := PState {
  state : Z;
  station_to_chargers : gmap Z (gset Z);
  charger_to_station : gmap Z Z;
  reports : gmap Z (list report)
}.

Definition initial : pstate :=
  {| state := 0; station_to_chargers := ∅; charger_to_station := ∅; reports := ∅ |}.

Definition set_state (st : pstate) (n : Z) : pstate :=
  {| state := n;
     station_to_chargers := station_to_chargers st;
     charger_to_station := charger_to_station st;
     reports := reports st |}.

(** Lines 39-44: the charger ids of a station line. *)
Fixpoint charger_ids_of (ln : string) (toks : list string) (charger_ids : list Z)
  : result (list Z) :=
  match toks with
  | [] => Ok charger_ids
  | tok :: toks' =>
      match Py.int tok with
      | Some n => charger_ids_of ln toks' (charger_ids ++ [n])
      | None => Err (InvalidChargerId ln)
      end
  end.

(** Lines 47-51.  [station_to_chargers[station_id]] exists when the loop
    runs (lines 45-46), so [.add] is an [alter]. *)
Fixpoint bind_chargers (station_id : Z) (charger_ids : list Z)
    (s2c : gmap Z (gset Z)) (c2s : gmap Z Z)
  : result (gmap Z (gset Z) * gmap Z Z) :=
  match charger_ids with
  | [] => Ok (s2c, c2s)
  | cid :: rest =>
      match c2s !! cid with
      | Some owner =>
          if bool_decide (owner ≠ station_id) then Err (MultipleStations cid)
          else bind_chargers station_id rest
                 (alter (λ cs, cs ∪ {[cid]}) station_id s2c)
                 (<[cid := station_id]> c2s)
      | None =>
          bind_chargers station_id rest
            (alter (λ cs, cs ∪ {[cid]}) station_id s2c)
            (<[cid := station_id]> c2s)
      end
  end.

(** Lines 32-51: a line met in station mode. *)
Definition station_line (st : pstate) (ln : string) : result pstate :=
  match Py.split ln with
  | [] => Ok st
  | p0 :: ptail =>
      match Py.int p0 with
      | None => Err (InvalidStationId ln)
      | Some station_id =>
          charger_ids ←! charger_ids_of ln ptail [];
          let s2c :=
            match station_to_chargers st !! station_id with
            | None => <[station_id := ∅]> (station_to_chargers st)
            | Some _ => station_to_chargers st
            end in
          maps ←! bind_chargers station_id charger_ids s2c (charger_to_station st);
          Ok {| state := state st;
                station_to_chargers := maps.1;
                charger_to_station := maps.2;
                reports := reports st |}
      end
  end.

(** Lines 54-71: a line met in report mode. *)
Definition report_line (st : pstate) (ln : string) : result pstate :=
  match Py.split ln with
  | [] => Ok st
  | (p0 :: _) as parts =>
      if Py.startswith p0 "[" then Ok st
      else
        match parts with
        | [f0; f1; f2; f3] =>
            match Py.int f0, Py.int f1, Py.int f2 with
            | Some cid, Some start, Some end_ =>
                let up_str := Py.lower f3 in
                if bool_decide (up_str ≠ "true" ∧ up_str ≠ "false")
                then Err (InvalidUpFlag ln)
                else
                  let up := bool_decide (up_str = "true") in
                  Ok {| state := state st;
                        station_to_chargers := station_to_chargers st;
                        charger_to_station := charger_to_station st;
                        reports :=
                          <[cid := default [] (reports st !! cid)
                                     ++ [(start, end_, up)]]> (reports st) |}
            | _, _, _ => Err (InvalidNumericField ln)
            end
        | _ => Err (InvalidReportFields ln)
        end
  end.

(** One iteration of the [while] loop on the stripped line [ln]. *)
Definition step (st : pstate) (ln : string) : result pstate :=
  if bool_decide (ln = "") then Ok st
  else if Py.startswith ln "#" then Ok st
  else if bool_decide (ln = "[Stations]") then Ok (set_state st 1)
  else if bool_decide (ln = "[Charger Availability Reports]") then Ok (set_state st 2)
  else if bool_decide (state st = 1) then station_line st ln
  else if bool_decide (state st = 2) then report_line st ln
  else Ok st.

Fixpoint loop (lines : list string) (st : pstate) : result pstate :=
  match lines with
  | [] => Ok st
  | ln :: rest => st' ←! step st ln; loop rest st'
  end.

(** The parser on the lines of the file as iteration yields them. *)
Definition parse_lines (raw : list string) : result pstate :=
  loop (Py.strip <$> raw) initial.

(** What [open] gives: the decoded text, or the message of the exception. *)
Inductive file : Type :=
  | FileText (text : string)
  | FileError (msg : string).

Definition parse_input (fs : string → file) (path : string)
  : result (gmap Z (gset Z) * gmap Z Z * gmap Z (list report)) :=
  match fs path with
  | FileError msg => Err (OSError msg)
  | FileText text =>
      st ←! parse_lines (Py.readlines text);
      Ok (station_to_chargers st, charger_to_station st, reports st)
  end.

End Parser.

(** ** Uptime calculator ([compute_station_uptime], lines 105-133) *)

Module Calculator.

Import Merger Parser.

(** Lines 114-117: what one report appends to [all_starts], [all_ends] and
    [up_intervals]. *)
Definition collect_report (acc : list Z * list Z * list (Z * Z)) (r : report)
  : list Z * list Z * list (Z * Z) :=
  let '(all_starts, all_ends, up_intervals) := acc in
  let '(s, e, up) := r in
  (all_starts ++ [s], all_ends ++ [e],
   if up then up_intervals ++ [(s, e)] else up_intervals).

(** Lines 112-117; [chargers] is the station's charger set in the order the
    set iteration yields it. *)
Definition collect (chargers : list Z) (reports : gmap Z (list report))
  : list Z * list Z * list (Z * Z) :=
  fold_left (λ acc cid, fold_left collect_report (default [] (reports !! cid)) acc)
    chargers ([], [], []).

(** Lines 118-132 for one station. *)
Definition window_uptime (all_starts all_ends : list Z) (up_intervals : list (Z * Z)) : Z :=
  match all_starts, all_ends with
  | s0 :: ss, e0 :: es =>
      let window_start := fold_left Z.min ss s0 in
      let window_end := fold_left Z.max es e0 in
      if bool_decide (window_end ≤ window_start) then 0
      else
        let up_merged := merge_intervals up_intervals in
        let up_time := clipped_total up_merged window_start window_end in
        let total := window_end - window_start in
        let pct := (up_time * 100) `div` total in
        let pct := if bool_decide (pct < 0) then 0 else pct in
        let pct := if bool_decide (pct > 100) then 100 else pct in
        pct
  | _, _ => 0
  end.

Definition station_uptime (chargers : list Z) (reports : gmap Z (list report)) : Z :=
  let '(all_starts, all_ends, up_intervals) := collect chargers reports in
  window_uptime all_starts all_ends up_intervals.

(** [sorted] on a list of integers. *)
Definition sorted (l : list Z) : list Z := merge_sort Z.le l.

Definition compute_station_uptime
    (station_to_chargers : gmap Z (gset Z)) (reports : gmap Z (list report))
  : gmap Z Z :=
  fold_left
    (λ results station_id,
       let chargers := default ∅ (station_to_chargers !! station_id) in
       <[station_id := station_uptime (elements chargers) reports]> results)
    (sorted (elements (dom station_to_chargers))) ∅.

End Calculator.

(** ** Program entry ([main], lines 135-149) *)

Module Main.

Import Parser Calculator.

Record output : Type := Output {
  stdout : list string;
  stderr : list string;
  exit_code : Z
}.

Definition emit (results : gmap Z Z) (station_id : Z) : string :=
  Py.str station_id +:+ " " +:+ Py.str (results !!! station_id).

(** Each element of [stdout] and [stderr] is one [print] call, that is one
    newline-terminated line. *)
Definition main (fs : string → file) (argv : list string) : output :=
  match argv with
  | [_; path] =>
      match parse_input fs path with
      | Ok (station_to_chargers, _, reports) =>
          let results := compute_station_uptime station_to_chargers reports in
          {| stdout := emit results <$> sorted (elements (dom results));
             stderr := [];
             exit_code := 0 |}
      | Err e =>
          {| stdout := ["error"];
             stderr := ["Error: " +:+ message e];
             exit_code := 1 |}
      end
  | _ =>
      {| stdout := [];
         stderr := ["Usage: station_uptime.py <input_file_path>"];
         exit_code := 2 |}
  end.

End Main.

(** ** Vocabulary of the properties *)

Module Props.

Import Merger Parser Calculator Main.

(** Intervals are half-open: [(s, e)] holds the points [s ≤ t < e]. *)
Definition inside (p : Z * Z) (t : Z) : Prop := p.1 ≤ t < p.2.

Definition covers (l : list (Z * Z)) (t : Z) : Prop := ∃ p, p ∈ l ∧ inside p t.

Definition disjoint (a b : Z * Z) : Prop := ∀ t, ¬ (inside a t ∧ inside b t).

Definition proper (p : Z * Z) : Prop := p.1 < p.2.

(** [b] starts strictly after [a] ends: disjoint and not even touching. *)
Definition gap (a b : Z * Z) : Prop := a.2 < b.1.

Definition by_start (a b : Z * Z) : Prop := a.1 ≤ b.1.

(** The body of the loop of [clipped_total]. *)
Definition clip_one (ws we : Z) (total : Z) (p : Z * Z) : Z :=
  if bool_decide (Z.min p.2 we > Z.max p.1 ws)
  then total + (Z.min p.2 we - Z.max p.1 ws) else total.

(** The reports of a station, charger by charger, and their projections. *)
Definition station_reports (chargers : list Z) (reports : gmap Z (list report))
  : list report :=
  flat_map (λ cid, default [] (reports !! cid)) chargers.

Definition starts (rs : list report) : list Z := (λ r : report, r.1.1) <$> rs.
Definition ends (rs : list report) : list Z := (λ r : report, r.1.2) <$> rs.
Definition ups (rs : list report) : list (Z * Z) :=
  (λ r : report, r.1) <$> filter (λ r : report, r.2 = true) rs.

Definition is_min (m : Z) (l : list Z) : Prop := m ∈ l ∧ Forall (λ x, m ≤ x) l.
Definition is_max (m : Z) (l : list Z) : Prop := m ∈ l ∧ Forall (λ x, x ≤ m) l.

(** The covered duration as the sum of the clipped lengths. *)
Definition covered_duration (l : list (Z * Z)) (ws we : Z) : Z :=
  foldr (λ p acc, Z.max 0 (Z.min p.2 we - Z.max p.1 ws) + acc) 0 l.

(** The percentage computed from a list of reports taken in a given order. *)
Definition uptime_of_reports (rs : list report) : Z :=
  let '(all_starts, all_ends, up_intervals) :=
    fold_left collect_report rs ([], [], []) in
  window_uptime all_starts all_ends up_intervals.

(** A stripped line that is neither blank, nor a comment, nor a section
    marker: the lines that reach the mode-specific branches of the loop. *)
Definition data_line (ln : string) : Prop :=
  ln ≠ "" ∧ Py.startswith ln "#" = false
  ∧ ln ≠ "[Stations]" ∧ ln ≠ "[Charger Availability Reports]".

(** The station id and charger ids of a station line all of whose tokens
    are integers. *)
Definition station_tokens (ln : string) : option (Z * list Z) :=
  match Py.split ln with
  | [] => None
  | p0 :: ptail =>
      match Py.int p0, charger_ids_of ln ptail [] with
      | Some station_id, Ok charger_ids => Some (station_id, charger_ids)
      | _, _ => None
      end
  end.

(** Some charger of the line is already bound to another station. *)
Definition conflict (c2s : gmap Z Z) (station_id : Z) (charger_ids : list Z) : Prop :=
  ∃ cid owner, cid ∈ charger_ids ∧ c2s !! cid = Some owner ∧ owner ≠ station_id.

(** The well-formed station lines met in station mode, in document order;
    [mode] is the parser's mode before the first line. *)
Fixpoint station_entries (mode : Z) (lines : list string) : list (Z * list Z) :=
  match lines with
  | [] => []
  | ln :: rest =>
      if bool_decide (ln = "") then station_entries mode rest
      else if Py.startswith ln "#" then station_entries mode rest
      else if bool_decide (ln = "[Stations]") then station_entries 1 rest
      else if bool_decide (ln = "[Charger Availability Reports]")
      then station_entries 2 rest
      else if bool_decide (mode = 1) then
        match station_tokens ln with
        | Some entry => entry :: station_entries mode rest
        | None => station_entries mode rest
        end
      else station_entries mode rest
  end.

(** What a conflict-free station line does to the ownership map: the
    station's set, empty if the station is new, grows by the line's ids. *)
Definition apply_entry (s2c : gmap Z (gset Z)) (entry : Z * list Z)
  : gmap Z (gset Z) :=
  <[entry.1 := default ∅ (s2c !! entry.1) ∪ list_to_set entry.2]> s2c.

(** A string made of whitespace only. *)
Fixpoint all_space (s : string) : Prop :=
  match s with
  | EmptyString => True
  | String c s' => Py.isspace c = true ∧ all_space s'
  end.

(** The charger ids listed for [station_id] across the entries. *)
Definition listed (station_id : Z) (entries : list (Z * list Z)) : gset Z :=
  ⋃ ((λ entry : Z * list Z,
        if bool_decide (entry.1 = station_id) then list_to_set entry.2 else ∅)
     <$> entries).

(** [s] spells the lower-case word [word] letter by letter, each letter in
    lower or in upper case (the capital of an ASCII letter is 32 code points
    below it). *)
Fixpoint spells (word s : string) : Prop :=
  match word, s with
  | EmptyString, EmptyString => True
  | String w word', String c s' =>
      (c = w ∨ (N_of_ascii c + 32 = N_of_ascii w)%N) ∧ spells word' s'
  | _, _ => False
  end.

(** A word of lower-case ASCII letters. *)
Fixpoint lower_letters (word : string) : Prop :=
  match word with
  | EmptyString => True
  | String w word' => (97 ≤ N_of_ascii w ≤ 122)%N ∧ lower_letters word'
  end.

(** A report line with exactly four fields: three integers and an up-flag
    that is [true] or [false] in any letter case. *)
Definition well_formed_report (ln : string) : Prop :=
  ∃ f0 f1 f2 f3 cid start end_,
    Py.split ln = [f0; f1; f2; f3]
    ∧ Py.int f0 = Some cid ∧ Py.int f1 = Some start ∧ Py.int f2 = Some end_
    ∧ (spells "true" f3 ∨ spells "false" f3).

(** Decimal numerals: a digit character and its value, and a non-empty
    string of digits with its value. *)
Inductive digit : ascii → Z → Prop :=
  | digit_0 : digit "0" 0 | digit_1 : digit "1" 1 | digit_2 : digit "2" 2
  | digit_3 : digit "3" 3 | digit_4 : digit "4" 4 | digit_5 : digit "5" 5
  | digit_6 : digit "6" 6 | digit_7 : digit "7" 7 | digit_8 : digit "8" 8
  | digit_9 : digit "9" 9.

Inductive numeral : string → Z → Prop :=
  | numeral_one c d : digit c d → numeral (String c EmptyString) d
  | numeral_snoc s n c d :
      numeral s n → digit c d →
      numeral (s +:+ String c EmptyString) (10 * n + d).

(** [s] is the decimal text of the integer [n] as [print] shows it: [0] for
    zero, the digits without a leading zero for a positive number, and a
    minus sign before the digits of the absolute value for a negative one. *)
Definition decimal_of (n : Z) (s : string) : Prop :=
  (n = 0 ∧ s = "0")
  ∨ (0 < n ∧ numeral s n ∧ ¬ Py.startswith s "0" = true)
  ∨ (n < 0 ∧ ∃ s', s = String "-" s' ∧ numeral s' (- n)
                   ∧ ¬ Py.startswith s' "0" = true).

(** The first token of the line begins with an opening bracket. *)
Definition bracket_first (ln : string) : Prop :=
  ∃ p0 ptail, Py.split ln = p0 :: ptail ∧ Py.startswith p0 "[" = true.

(** The two ownership maps agree: a charger is owned by a station exactly
    when it is in that station's set. *)
Definition consistent (s2c : gmap Z (gset Z)) (c2s : gmap Z Z) : Prop :=
  ∀ cid sid, c2s !! cid = Some sid ↔ ∃ cs, s2c !! sid = Some cs ∧ cid ∈ cs.

(** The charger id and the report of a well-formed report line. *)
Definition report_tokens (ln : string) : option (Z * report) :=
  match Py.split ln with
  | [f0; f1; f2; f3] =>
      if Py.startswith f0 "[" then None
      else
        match Py.int f0, Py.int f1, Py.int f2 with
        | Some cid, Some start, Some end_ =>
            if bool_decide (Py.lower f3 = "true") then Some (cid, (start, end_, true))
            else if bool_decide (Py.lower f3 = "false")
            then Some (cid, (start, end_, false))
            else None
        | _, _, _ => None
        end
  | _ => None
  end.

(** The well-formed report lines met in report mode, in document order. *)
Fixpoint report_entries (mode : Z) (lines : list string) : list (Z * report) :=
  match lines with
  | [] => []
  | ln :: rest =>
      if bool_decide (ln = "") then report_entries mode rest
      else if Py.startswith ln "#" then report_entries mode rest
      else if bool_decide (ln = "[Stations]") then report_entries 1 rest
      else if bool_decide (ln = "[Charger Availability Reports]")
      then report_entries 2 rest
      else if bool_decide (mode = 1) then report_entries mode rest
      else if bool_decide (mode = 2) then
        match report_tokens ln with
        | Some entry => entry :: report_entries mode rest
        | None => report_entries mode rest
        end
      else report_entries mode rest
  end.

(** What an accepted report line does to the report map. *)
Definition apply_report (reps : gmap Z (list report)) (entry : Z * report)
  : gmap Z (list report) :=
  <[entry.1 := default [] (reps !! entry.1) ++ [entry.2]]> reps.

(** The reports of charger [cid] among the entries, in order. *)
Definition reports_of (cid : Z) (entries : list (Z * report)) : list report :=
  snd <$> filter (λ entry : Z * report, entry.1 = cid) entries.

(** The line an exception quotes, if it quotes one. *)
Definition quoted_line (e : exn) : option string :=
  match e with
  | InvalidStationId ln | InvalidChargerId ln | InvalidReportFields ln
  | InvalidNumericField ln | InvalidUpFlag ln => Some ln
  | MultipleStations _ | OSError _ => None
  end.

(** The string holds a space character. *)
Fixpoint has_space (s : string) : bool :=
  match s with
  | EmptyString => false
  | String c s' => bool_decide (c = " "%char) || has_space s'
  end.

(** Neither of the two section markers. *)
Definition no_marker (ln : string) : Prop :=
  ln ≠ "[Stations]" ∧ ln ≠ "[Charger Availability Reports]".

(** Counting the unit slots [t, t+1) of a range that some interval of a
    list holds. *)
Definition inside_b (p : Z * Z) (t : Z) : bool := bool_decide (p.1 ≤ t < p.2).

Definition covered_b (l : list (Z * Z)) (t : Z) : bool := existsb (λ p, inside_b p t) l.

Fixpoint count_from (P : Z → bool) (t : Z) (n : nat) : Z :=
  match n with
  | O => 0
  | S n' => (if P t then 1 else 0) + count_from P (t + 1) n'
  end.

Definition covered_slots (l : list (Z * Z)) (ws we : Z) : Z :=
  count_from (covered_b l) ws (Z.to_nat (we - ws)).

(** A document with three stations listed out of order. *)
Definition three_stations_document : string :=
  "[Stations]" +:+ String Py.LF "10 1" +:+ String Py.LF "2 3" +:+ String Py.LF
  "-3" +:+ String Py.LF "[Charger Availability Reports]" +:+ String Py.LF
  "1 0 10 true" +:+ String Py.LF "1 10 20 false" +:+ String Py.LF
  "3 0 5 true" +:+ String Py.LF "".

(** The document of the end-to-end example. *)
Definition nl : string := String Py.LF EmptyString.

Definition example_document : string :=
  "[Stations]" +:+ nl +:+ "1 10 11" +:+ nl +:+
  "[Charger Availability Reports]" +:+ nl +:+
  "10 0 100 true" +:+ nl +:+ "11 50 150 false" +:+ nl.

End Props.

(** * Properties *)

Import Merger Parser Calculator Main Props.

(** ** The order used by [sort] *)

#[local] Instance tuple_le_trans : Transitive tuple_le.
Proof. intros [a1 a2] [b1 b2] [c1 c2]; unfold tuple_le; simpl; lia. Qed.

#[local] Instance tuple_le_total : Total tuple_le.
Proof. intros [a1 a2] [b1 b2]; unfold tuple_le; simpl; lia. Qed.

#[local] Instance tuple_le_antisymm : AntiSymm (=) tuple_le.
Proof.
  intros [a1 a2] [b1 b2]; unfold tuple_le; simpl; intros H1 H2.
  f_equal; lia.
Qed.

Lemma py_sort_perm l : py_sort l ≡ₚ l.
Proof. apply merge_sort_Permutation. Qed.

Lemma py_sort_sorted l : StronglySorted tuple_le (py_sort l).
Proof. apply StronglySorted_merge_sort; apply _. Qed.

Lemma py_sort_unique l1 l2 : l1 ≡ₚ l2 → py_sort l1 = py_sort l2.
Proof.
  intros Hp. apply (StronglySorted_unique tuple_le); try apply py_sort_sorted.
  by rewrite !py_sort_perm.
Qed.

Lemma py_sort_fixed l : StronglySorted tuple_le l → py_sort l = l.
Proof.
  intros Hs. apply (StronglySorted_unique tuple_le); auto using py_sort_sorted.
  apply py_sort_perm.
Qed.

Lemma StronglySorted_weaken {A} (R S : relation A) l :
  (∀ x y, R x y → S x y) → StronglySorted R l → StronglySorted S l.
Proof.
  intros HRS. induction 1 as [|x l Hl IH Hx]; constructor; auto.
  eapply Forall_impl; eauto.
Qed.

Lemma StronglySorted_lookup {A} (R : relation A) l :
  StronglySorted R l ↔
  ∀ (i j : nat) a b, (i < j)%nat → l !! i = Some a → l !! j = Some b → R a b.
Proof.
  split.
  - induction 1 as [|x l Hl IH Hx]; intros i j a b Hij Hi Hj.
    + by rewrite lookup_nil in Hi.
    + destruct j as [|j]; [lia|]. simpl in Hj.
      destruct i as [|i]; simpl in Hi.
      * injection Hi as <-. rewrite Forall_forall in Hx.
        apply Hx. eapply list_elem_of_lookup_2; eauto.
      * eapply (IH i j); eauto. lia.
  - induction l as [|x l IH]; intros H; constructor.
    + apply IH. intros i j a b Hij Hi Hj. apply (H (S i) (S j)); auto. lia.
    + apply Forall_forall. intros y Hy.
      apply list_elem_of_lookup_1 in Hy as [k Hk].
      apply (H 0%nat (S k)); auto. lia.
Qed.

(** ** The sweep *)

Lemma sweep_acc rest : ∀ cs ce merged,
  sweep rest cs ce merged = merged ++ sweep rest cs ce [].
Proof.
  induction rest as [|[s e] rest IH]; intros cs ce merged; simpl.
  - done.
  - repeat case_bool_decide; auto.
    rewrite (IH s e (merged ++ _)), (IH s e [_]).
    by rewrite <- app_assoc.
Qed.

Lemma covers_nil t : ¬ covers [] t.
Proof. intros (p & Hp & _). by apply elem_of_nil in Hp. Qed.

Lemma covers_cons p l t : covers (p :: l) t ↔ inside p t ∨ covers l t.
Proof.
  unfold covers. split.
  - intros (q & Hq & Hin). apply elem_of_cons in Hq as [->|Hq]; eauto.
  - intros [H|(q & Hq & Hin)].
    + exists p. split; [apply elem_of_cons|]; auto.
    + exists q. split; [apply elem_of_cons|]; auto.
Qed.

Lemma sweep_spec rest : ∀ cs ce,
  cs < ce →
  Forall (λ p, cs ≤ p.1 ∧ proper p) rest →
  StronglySorted by_start rest →
  Forall (λ p, cs ≤ p.1 ∧ proper p) (sweep rest cs ce [])
  ∧ StronglySorted gap (sweep rest cs ce [])
  ∧ ∀ t, covers (sweep rest cs ce []) t ↔ (cs ≤ t < ce ∨ covers rest t).
Proof.
  induction rest as [|[s e] rest IH]; intros cs ce Hc Hall Hsorted; simpl.
  - split_and!.
    + apply Forall_singleton. unfold proper. simpl. lia.
    + apply StronglySorted_cons; split; constructor.
    + intros t. rewrite covers_cons. unfold inside; simpl.
      pose proof (covers_nil t). tauto.
  - apply Forall_cons in Hall as [[Hs Hse] Hall].
    apply StronglySorted_inv in Hsorted as [Hsorted Hhd].
    unfold proper, by_start in *; simpl in *.
    repeat case_bool_decide.
    + destruct (IH cs e) as (H1 & H2 & H3); auto; [lia|].
      split_and!; auto. intros t. rewrite H3, covers_cons.
      unfold inside; simpl. intuition lia.
    + destruct (IH cs ce) as (H1 & H2 & H3); auto.
      split_and!; auto. intros t. rewrite H3, covers_cons.
      unfold inside; simpl. intuition lia.
    + rewrite sweep_acc. simpl.
      destruct (IH s e) as (H1 & H2 & H3); auto.
      { apply Forall_forall. intros p Hp.
        rewrite Forall_forall in Hall, Hhd.
        specialize (Hall p Hp). specialize (Hhd p Hp). simpl in *. lia. }
      split_and!.
      * constructor; [simpl; lia|].
        eapply Forall_impl; [exact H1|]. simpl. intros p Hp. lia.
      * constructor; auto.
        eapply Forall_impl; [exact H1|]. unfold gap. simpl. intros p Hp. lia.
      * intros t. rewrite !covers_cons, H3. unfold inside; simpl. tauto.
Qed.

(** A list that already has gaps goes through the sweep unchanged. *)
Lemma sweep_fixed rest : ∀ cs ce,
  StronglySorted gap ((cs, ce) :: rest) →
  sweep rest cs ce [] = (cs, ce) :: rest.
Proof.
  induction rest as [|[s e] rest IH]; intros cs ce Hs; simpl; [done|].
  apply StronglySorted_inv in Hs as [Hs Hhd].
  apply Forall_cons in Hhd as [Hg _]. unfold gap in Hg; simpl in Hg.
  case_bool_decide; [lia|].
  rewrite sweep_acc. simpl. f_equal. by apply IH.
Qed.

(** ** The merger *)

Lemma merge_intervals_unfold intervals :
  merge_intervals intervals =
  match py_sort (filter (λ p : Z * Z, p.2 > p.1) intervals) with
  | [] => []
  | (cs, ce) :: rest => sweep rest cs ce []
  end.
Proof.
  unfold merge_intervals. destruct intervals as [|p l]; [done|].
  destruct (filter _ (p :: l)); done.
Qed.

Lemma covers_perm l1 l2 t : l1 ≡ₚ l2 → covers l1 t ↔ covers l2 t.
Proof.
  intros Hp. unfold covers. split; intros (p & Hin & Ht); exists p; split; auto.
  - by rewrite <- Hp.
  - by rewrite Hp.
Qed.

Lemma sorted_norm_head cs ce rest l :
  py_sort (filter (λ p : Z * Z, p.2 > p.1) l) = (cs, ce) :: rest →
  cs < ce
  ∧ Forall (λ p, cs ≤ p.1 ∧ proper p) rest
  ∧ StronglySorted by_start rest.
Proof.
  intros Heq.
  pose proof (py_sort_sorted (filter (λ p : Z * Z, p.2 > p.1) l)) as Hs.
  pose proof (py_sort_perm (filter (λ p : Z * Z, p.2 > p.1) l)) as Hp.
  rewrite Heq in Hs, Hp.
  assert (Hall : Forall proper ((cs, ce) :: rest)).
  { apply Forall_forall. intros p Hin. rewrite Hp in Hin.
    apply list_elem_of_filter in Hin as [Hin _]. unfold proper. lia. }
  apply Forall_cons in Hall as [Hc Hall].
  apply StronglySorted_inv in Hs as [Hs Hhd].
  split_and!.
  - exact Hc.
  - apply Forall_forall. intros p Hin.
    rewrite Forall_forall in Hall, Hhd. split; [|by apply Hall].
    specialize (Hhd p Hin). unfold tuple_le in Hhd. simpl in Hhd. lia.
  - eapply StronglySorted_weaken; [|exact Hs].
    intros x y. unfold tuple_le, by_start. lia.
Qed.

Lemma merge_intervals_spec l :
  StronglySorted gap (merge_intervals l)
  ∧ Forall proper (merge_intervals l)
  ∧ ∀ t, covers (merge_intervals l) t
         ↔ covers (filter (λ p : Z * Z, p.2 > p.1) l) t.
Proof.
  rewrite merge_intervals_unfold.
  pose proof (py_sort_perm (filter (λ p : Z * Z, p.2 > p.1) l)) as Hp.
  destruct (py_sort _) as [|[cs ce] rest] eqn:Heq.
  - split_and!; [constructor|constructor|].
    intros t. by rewrite <- (covers_perm _ _ t Hp).
  - destruct (sorted_norm_head _ _ _ _ Heq) as (Hc & Hall & Hs).
    destruct (sweep_spec rest cs ce Hc Hall Hs) as (H1 & H2 & H3).
    split_and!; auto.
    + eapply Forall_impl; [exact H1|]. simpl. intros p [_ Hpp]. exact Hpp.
    + intros t. rewrite H3, <- (covers_perm _ _ t Hp), covers_cons.
      unfold inside. simpl. reflexivity.
Qed.

Lemma gap_sorted l :
  StronglySorted gap l → Forall proper l → StronglySorted tuple_le l.
Proof.
  induction 1 as [|x l Hl IH Hx]; intros Hall; [constructor|].
  apply Forall_cons in Hall as [Hpx Hall]. constructor; auto.
  rewrite Forall_forall in Hx |- *. intros y Hy. specialize (Hx y Hy).
  unfold gap, proper, tuple_le in *. lia.
Qed.

Lemma filter_proper_all l :
  Forall proper l → filter (λ p : Z * Z, p.2 > p.1) l = l.
Proof.
  induction 1 as [|x l Hx Hl IH]; [done|].
  rewrite filter_cons. unfold proper in Hx.
  destruct (decide (x.2 > x.1)); [by rewrite IH | lia].
Qed.

Lemma merge_intervals_fixed l :
  StronglySorted gap l → Forall proper l → merge_intervals l = l.
Proof.
  intros Hg Hp. rewrite merge_intervals_unfold, filter_proper_all by done.
  rewrite py_sort_fixed by (by apply gap_sorted).
  destruct l as [|[cs ce] rest]; [done|]. by apply sweep_fixed.
Qed.

Lemma merge_intervals_perm l l' :
  l ≡ₚ l' → merge_intervals l = merge_intervals l'.
Proof.
  intros Hp. rewrite !merge_intervals_unfold.
  by rewrite (py_sort_unique _ _ (filter_Permutation _ _ _ Hp)).
Qed.

(** C1. For every list of integer pairs the merged output is sorted
    ascending by start and pairwise disjoint (every later interval even
    starts strictly after every earlier one ends), each output interval is
    non-empty, and a point is covered by the output exactly when it is
    covered by an input interval with [start < end]; the empty input gives
    the empty output. *)
Theorem merge_intervals_correct (intervals : list (Z * Z)) :
  (∀ (i j : nat) a b, (i < j)%nat →
     merge_intervals intervals !! i = Some a →
     merge_intervals intervals !! j = Some b →
     a.1 < b.1 ∧ a.2 < b.1 ∧ disjoint a b)
  ∧ (∀ a, a ∈ merge_intervals intervals → a.1 < a.2)
  ∧ (∀ t, covers (merge_intervals intervals) t
          ↔ ∃ p, p ∈ intervals ∧ p.1 < p.2 ∧ inside p t)
  ∧ merge_intervals [] = [].
Proof.
  destruct (merge_intervals_spec intervals) as (Hg & Hp & Hc).
  split_and!.
  - intros i j a b Hij Hi Hj.
    pose proof (proj1 (StronglySorted_lookup gap _) Hg i j a b Hij Hi Hj) as Hab.
    rewrite Forall_forall in Hp.
    pose proof (Hp a (list_elem_of_lookup_2 _ _ _ Hi)) as Ha.
    unfold gap, proper, disjoint, inside in *. split_and!; lia.
  - intros a Ha. rewrite Forall_forall in Hp. by apply Hp.
  - intros t. rewrite Hc. unfold covers. split.
    + intros (p & Hin & Ht). apply list_elem_of_filter in Hin as [Hlt Hin].
      exists p. split_and!; auto. lia.
    + intros (p & Hin & Hlt & Ht). exists p. split; auto.
      apply list_elem_of_filter. split; auto. lia.
  - reflexivity.
Qed.

(** C7. Merging the output of a merge gives that same list. *)
Theorem merge_intervals_idempotent (intervals : list (Z * Z)) :
  merge_intervals (merge_intervals intervals) = merge_intervals intervals.
Proof.
  destruct (merge_intervals_spec intervals) as (Hg & Hp & _).
  by apply merge_intervals_fixed.
Qed.

(** ** Collecting the reports of a station *)

Lemma fold_collect_report rs : ∀ a b c,
  fold_left collect_report rs (a, b, c) = (a ++ starts rs, b ++ ends rs, c ++ ups rs).
Proof.
  induction rs as [|[[s e] up] rs IH]; intros a b c.
  - simpl. by rewrite !app_nil_r.
  - simpl. rewrite IH. unfold starts, ends, ups. simpl.
    rewrite filter_cons. destruct up; simpl.
    + destruct (decide (true = true)); [|done].
      by rewrite <- !app_assoc.
    + destruct (decide (false = true)); [done|].
      by rewrite <- !app_assoc.
Qed.

Lemma starts_app r1 r2 : starts (r1 ++ r2) = starts r1 ++ starts r2.
Proof. apply fmap_app. Qed.

Lemma ends_app r1 r2 : ends (r1 ++ r2) = ends r1 ++ ends r2.
Proof. apply fmap_app. Qed.

Lemma ups_app r1 r2 : ups (r1 ++ r2) = ups r1 ++ ups r2.
Proof. unfold ups. by rewrite filter_app, fmap_app. Qed.

Lemma collect_eq chargers reports :
  collect chargers reports =
  (starts (station_reports chargers reports),
   ends (station_reports chargers reports),
   ups (station_reports chargers reports)).
Proof.
  unfold collect.
  assert (H : ∀ a b c,
    fold_left (λ acc cid,
        fold_left collect_report (default [] (reports !! cid)) acc)
      chargers (a, b, c)
    = (a ++ starts (station_reports chargers reports),
       b ++ ends (station_reports chargers reports),
       c ++ ups (station_reports chargers reports))).
  { induction chargers as [|cid chargers IH]; intros a b c; simpl.
    - by rewrite !app_nil_r.
    - rewrite fold_collect_report, IH, starts_app, ends_app, ups_app.
      by rewrite <- !app_assoc. }
  apply (H [] [] []).
Qed.

Lemma station_uptime_eq chargers reports :
  station_uptime chargers reports
  = uptime_of_reports (station_reports chargers reports).
Proof.
  unfold station_uptime, uptime_of_reports.
  by rewrite collect_eq, fold_collect_report.
Qed.

Lemma uptime_of_reports_eq rs :
  uptime_of_reports rs = window_uptime (starts rs) (ends rs) (ups rs).
Proof. unfold uptime_of_reports. by rewrite fold_collect_report. Qed.

(** ** Minimum and maximum *)

Lemma is_min_spec m l : is_min m l ↔ m ∈ l ∧ ∀ x, x ∈ l → m ≤ x.
Proof. unfold is_min. by rewrite Forall_forall. Qed.

Lemma is_max_spec m l : is_max m l ↔ m ∈ l ∧ ∀ x, x ∈ l → x ≤ m.
Proof. unfold is_max. by rewrite Forall_forall. Qed.

Lemma fold_min_is_min ss : ∀ s0, is_min (fold_left Z.min ss s0) (s0 :: ss).
Proof.
  induction ss as [|s ss IH]; intros s0; simpl; apply is_min_spec.
  - split; [apply list_elem_of_here|].
    intros x Hx. apply list_elem_of_singleton in Hx. lia.
  - destruct (proj1 (is_min_spec _ _) (IH (Z.min s0 s))) as [Hin Hle]. split.
    + apply elem_of_cons in Hin as [Hin|Hin].
      * rewrite Hin. destruct (Z.min_spec s0 s) as [[_ ->]|[_ ->]].
        -- apply list_elem_of_here.
        -- apply list_elem_of_further, list_elem_of_here.
      * by do 2 apply list_elem_of_further.
    + intros x Hx.
      assert (Hm : fold_left Z.min ss (Z.min s0 s) ≤ Z.min s0 s)
        by (apply Hle, list_elem_of_here).
      apply elem_of_cons in Hx as [->|Hx]; [lia|].
      apply elem_of_cons in Hx as [->|Hx]; [lia|].
      by apply Hle, list_elem_of_further.
Qed.

Lemma fold_max_is_max es : ∀ e0, is_max (fold_left Z.max es e0) (e0 :: es).
Proof.
  induction es as [|e es IH]; intros e0; simpl; apply is_max_spec.
  - split; [apply list_elem_of_here|].
    intros x Hx. apply list_elem_of_singleton in Hx. lia.
  - destruct (proj1 (is_max_spec _ _) (IH (Z.max e0 e))) as [Hin Hle]. split.
    + apply elem_of_cons in Hin as [Hin|Hin].
      * rewrite Hin. destruct (Z.max_spec e0 e) as [[_ ->]|[_ ->]].
        -- apply list_elem_of_further, list_elem_of_here.
        -- apply list_elem_of_here.
      * by do 2 apply list_elem_of_further.
    + intros x Hx.
      assert (Hm : Z.max e0 e ≤ fold_left Z.max es (Z.max e0 e))
        by (apply Hle, list_elem_of_here).
      apply elem_of_cons in Hx as [->|Hx]; [lia|].
      apply elem_of_cons in Hx as [->|Hx]; [lia|].
      by apply Hle, list_elem_of_further.
Qed.

Lemma is_min_unique m1 m2 l : is_min m1 l → is_min m2 l → m1 = m2.
Proof.
  intros [H1 H2]%is_min_spec [H3 H4]%is_min_spec.
  specialize (H2 _ H3). specialize (H4 _ H1). lia.
Qed.

Lemma is_max_unique m1 m2 l : is_max m1 l → is_max m2 l → m1 = m2.
Proof.
  intros [H1 H2]%is_max_spec [H3 H4]%is_max_spec.
  specialize (H2 _ H3). specialize (H4 _ H1). lia.
Qed.

Lemma is_min_perm m l l' : l ≡ₚ l' → is_min m l → is_min m l'.
Proof. intros Hp [H1 H2]. split; by rewrite <- Hp. Qed.

Lemma is_max_perm m l l' : l ≡ₚ l' → is_max m l → is_max m l'.
Proof. intros Hp [H1 H2]. split; by rewrite <- Hp. Qed.

(** ** Clipping *)

Lemma clipped_total_acc ws we l : ∀ acc,
  fold_left (clip_one ws we) l acc = acc + fold_left (clip_one ws we) l 0.
Proof.
  induction l as [|p l IH]; intros acc; simpl; [lia|].
  rewrite (IH (clip_one ws we acc p)), (IH (clip_one ws we 0 p)).
  unfold clip_one. case_bool_decide; lia.
Qed.

Lemma clipped_total_fold l ws we :
  clipped_total l ws we = fold_left (clip_one ws we) l 0.
Proof. reflexivity. Qed.

Lemma clipped_total_cons p l ws we :
  clipped_total (p :: l) ws we
  = Z.max 0 (Z.min p.2 we - Z.max p.1 ws) + clipped_total l ws we.
Proof.
  rewrite !clipped_total_fold. simpl. rewrite clipped_total_acc.
  generalize (fold_left (clip_one ws we) l 0). intros z.
  unfold clip_one. case_bool_decide; lia.
Qed.

Lemma clipped_total_bound_from ws we l : ∀ lo,
  StronglySorted gap l →
  Forall (λ p, lo ≤ p.1 ∧ proper p) l →
  0 ≤ clipped_total l ws we ≤ Z.max 0 (we - Z.max lo ws).
Proof.
  induction l as [|p l IH]; intros lo Hs Hall.
  - unfold clipped_total. simpl. lia.
  - apply StronglySorted_inv in Hs as [Hs Hhd].
    apply Forall_cons in Hall as [[Hlo Hp] Hall].
    rewrite clipped_total_cons.
    assert (Hrest : Forall (λ q, p.2 ≤ q.1 ∧ proper q) l).
    { rewrite Forall_forall in Hall, Hhd |- *. intros q Hq.
      specialize (Hall q Hq). specialize (Hhd q Hq). unfold gap in Hhd.
      split; [lia | tauto]. }
    specialize (IH p.2 Hs Hrest). unfold proper in Hp. lia.
Qed.

Lemma clipped_total_bound ws we l :
  StronglySorted gap l → Forall proper l →
  0 ≤ clipped_total l ws we ≤ Z.max 0 (we - ws).
Proof.
  intros Hs Hall. destruct l as [|p l].
  - unfold clipped_total. simpl. lia.
  - pose proof (clipped_total_bound_from ws we (p :: l) p.1 Hs) as H.
    assert (Forall (λ q, p.1 ≤ q.1 ∧ proper q) (p :: l)) as Hf.
    { apply StronglySorted_inv in Hs as [_ Hhd].
      apply Forall_cons in Hall as [Hp Hall]. constructor; [split; [lia|done]|].
      rewrite Forall_forall in Hall, Hhd |- *. intros q Hq.
      specialize (Hall q Hq). specialize (Hhd q Hq).
      unfold gap, proper in *. split; [lia|done]. }
    specialize (H Hf). lia.
Qed.

(** The covered duration of the merged up-intervals never exceeds the
    window. *)
Lemma up_time_bound ws we l :
  ws < we → 0 ≤ clipped_total (merge_intervals l) ws we ≤ we - ws.
Proof.
  intros Hw. destruct (merge_intervals_spec l) as (Hg & Hp & _).
  pose proof (clipped_total_bound ws we _ Hg Hp). lia.
Qed.

Lemma quotient_bounds up_time total :
  0 < total → 0 ≤ up_time ≤ total → 0 ≤ (up_time * 100) `div` total ≤ 100.
Proof.
  intros Ht Hu. split.
  - apply Z.div_pos; lia.
  - apply Z.div_le_upper_bound; lia.
Qed.

Lemma floor_div_spec a b :
  0 < b → (a `div` b) * b ≤ a < (a `div` b + 1) * b.
Proof.
  intros Hb. pose proof (Z.div_mod a b ltac:(lia)) as Hd.
  pose proof (Z.mod_pos_bound a b Hb) as Hm. nia.
Qed.

(** ** One station *)

Lemma window_uptime_nil_l ends ups : window_uptime [] ends ups = 0.
Proof. done. Qed.

Lemma window_uptime_cons s0 ss e0 es up_intervals :
  window_uptime (s0 :: ss) (e0 :: es) up_intervals =
  let window_start := fold_left Z.min ss s0 in
  let window_end := fold_left Z.max es e0 in
  if bool_decide (window_end ≤ window_start) then 0
  else
    let pct := (clipped_total (merge_intervals up_intervals)
                  window_start window_end * 100)
               `div` (window_end - window_start) in
    let pct := if bool_decide (pct < 0) then 0 else pct in
    if bool_decide (pct > 100) then 100 else pct.
Proof. reflexivity. Qed.

Lemma window_uptime_window rs ws we :
  rs ≠ [] → is_min ws (starts rs) → is_max we (ends rs) →
  uptime_of_reports rs =
  if bool_decide (we ≤ ws) then 0
  else
    let pct := (clipped_total (merge_intervals (ups rs)) ws we * 100) `div` (we - ws) in
    let pct := if bool_decide (pct < 0) then 0 else pct in
    if bool_decide (pct > 100) then 100 else pct.
Proof.
  intros Hne Hmin Hmax. rewrite uptime_of_reports_eq.
  destruct rs as [|[[s e] up] rs]; [done|].
  change (starts (((s, e), up) :: rs)) with (s :: starts rs) in *.
  change (ends (((s, e), up) :: rs)) with (e :: ends rs) in *.
  rewrite window_uptime_cons.
  rewrite (is_min_unique _ _ _ (fold_min_is_min (starts rs) s) Hmin).
  rewrite (is_max_unique _ _ _ (fold_max_is_max (ends rs) e) Hmax).
  reflexivity.
Qed.

Lemma uptime_of_reports_positive rs ws we :
  rs ≠ [] → is_min ws (starts rs) → is_max we (ends rs) → we > ws →
  uptime_of_reports rs
  = (clipped_total (merge_intervals (ups rs)) ws we * 100) `div` (we - ws).
Proof.
  intros Hne Hmin Hmax Hw. rewrite (window_uptime_window rs ws we) by done.
  pose proof (up_time_bound ws we (ups rs) ltac:(lia)) as Hb.
  pose proof (quotient_bounds _ (we - ws) ltac:(lia) Hb) as Hq.
  simpl. repeat case_bool_decide; lia.
Qed.

Lemma uptime_of_reports_perm rs rs' :
  rs ≡ₚ rs' → uptime_of_reports rs = uptime_of_reports rs'.
Proof.
  intros Hp. destruct rs as [|r rs].
  - apply Permutation_nil_l in Hp. by subst.
  - assert (Hne' : rs' ≠ []).
    { intros ->. by apply Permutation_nil_r in Hp. }
    assert (Hs : starts (r :: rs) ≡ₚ starts rs') by (unfold starts; by rewrite Hp).
    assert (He : ends (r :: rs) ≡ₚ ends rs') by (unfold ends; by rewrite Hp).
    assert (Hu : ups (r :: rs) ≡ₚ ups rs') by (unfold ups; by rewrite Hp).
    pose proof (fold_min_is_min (starts rs) r.1.1) as Hmin.
    pose proof (fold_max_is_max (ends rs) r.1.2) as Hmax.
    rewrite (window_uptime_window (r :: rs) _ _ ltac:(done) Hmin Hmax).
    rewrite (window_uptime_window rs' _ _ Hne'
               (is_min_perm _ _ _ Hs Hmin) (is_max_perm _ _ _ He Hmax)).
    by rewrite (merge_intervals_perm _ _ Hu).
Qed.

Lemma station_reports_perm chargers chargers' reports :
  chargers ≡ₚ chargers' →
  station_reports chargers reports ≡ₚ station_reports chargers' reports.
Proof.
  unfold station_reports. induction 1 as [|x l l' Hp IH|x y l|l1 l2 l3 H1 IH1 H2 IH2]; simpl.
  - done.
  - by rewrite IH.
  - rewrite !app_assoc. f_equiv. apply Permutation_app_comm.
  - by rewrite IH1.
Qed.

(** ** All stations *)

Lemma fold_insert_lookup {V} (f : Z → V) (keys : list Z) : ∀ (m : gmap Z V) k,
  fold_left (λ results key, <[key := f key]> results) keys m !! k
  = if decide (k ∈ keys) then Some (f k) else m !! k.
Proof.
  induction keys as [|key keys IH]; intros m k; simpl.
  - destruct (decide (k ∈ [])) as [H|H]; [by apply elem_of_nil in H | done].
  - rewrite IH. destruct (decide (k ∈ keys)) as [Hin|Hnin].
    + rewrite decide_True; [done|]. by apply list_elem_of_further.
    + destruct (decide (k = key)) as [->|Hne].
      * rewrite decide_True by apply list_elem_of_here.
        apply lookup_insert_eq.
      * rewrite decide_False; [by apply lookup_insert_ne|].
        intros [?|?]%elem_of_cons; done.
Qed.

Lemma sorted_elem_of k l : k ∈ sorted l ↔ k ∈ l.
Proof. unfold sorted. by rewrite merge_sort_Permutation. Qed.

Lemma compute_station_uptime_lookup s2c reports sid :
  compute_station_uptime s2c reports !! sid
  = (λ chargers, station_uptime (elements chargers) reports) <$> s2c !! sid.
Proof.
  unfold compute_station_uptime.
  rewrite (fold_insert_lookup
    (λ k, station_uptime (elements (default ∅ (s2c !! k))) reports)).
  destruct (decide _) as [Hin|Hnin].
  - apply sorted_elem_of, elem_of_elements, elem_of_dom in Hin as [cs Hcs].
    by rewrite Hcs.
  - rewrite lookup_empty. destruct (s2c !! sid) eqn:Hl; [|done].
    exfalso. apply Hnin, sorted_elem_of, elem_of_elements, elem_of_dom. eauto.
Qed.

Lemma compute_station_uptime_dom s2c reports :
  dom (compute_station_uptime s2c reports) = dom s2c.
Proof.
  apply set_eq. intros k. rewrite !elem_of_dom, compute_station_uptime_lookup.
  by rewrite fmap_is_Some.
Qed.

Lemma clipped_total_covered l ws we :
  clipped_total l ws we = covered_duration l ws we.
Proof.
  induction l as [|p l IH]; [done|].
  rewrite clipped_total_cons, IH. reflexivity.
Qed.

Lemma station_reports_nil chargers reports :
  (∀ cid, cid ∈ chargers → default [] (reports !! cid) = []) →
  station_reports chargers reports = [].
Proof.
  unfold station_reports. induction chargers as [|c cs IH]; intros H; simpl; [done|].
  rewrite (H c) by apply list_elem_of_here. simpl.
  apply IH. intros cid Hc. by apply H, list_elem_of_further.
Qed.

(** C2. For a station with at least one report and a window with
    [window_end > window_start], the computed uptime is the floor of
    [covered_duration * 100 / window_duration], where the covered duration
    is the sum of the clipped lengths of the merged up-intervals; the
    quotient lies in [0, 100], so the clamp leaves it unchanged. *)
Theorem uptime_is_floor_ratio
    (s2c : gmap Z (gset Z)) (reports : gmap Z (list report))
    (sid : Z) (chargers : gset Z) (ws we : Z) :
  s2c !! sid = Some chargers →
  station_reports (elements chargers) reports ≠ [] →
  is_min ws (starts (station_reports (elements chargers) reports)) →
  is_max we (ends (station_reports (elements chargers) reports)) →
  we > ws →
  let covered :=
    covered_duration
      (merge_intervals (ups (station_reports (elements chargers) reports)))
      ws we in
  let q := (covered * 100) `div` (we - ws) in
  compute_station_uptime s2c reports !! sid = Some q
  ∧ 0 ≤ q ≤ 100
  ∧ q * (we - ws) ≤ covered * 100 < (q + 1) * (we - ws).
Proof.
  intros Hs Hne Hmin Hmax Hw covered q. subst covered q.
  rewrite <- clipped_total_covered.
  split; [|split].
  - rewrite compute_station_uptime_lookup, Hs. simpl. f_equal.
    rewrite station_uptime_eq. by apply uptime_of_reports_positive.
  - apply quotient_bounds; [lia|]. apply up_time_bound. lia.
  - apply floor_div_spec. lia.
Qed.

Lemma uptime_is_floor_ratio_witness :
  compute_station_uptime {[1 := {[10; 11]}]}
    {[10 := [(0, 100, true)]; 11 := [(50, 150, false)]]} !! 1 = Some 66.
Proof.
  refine (proj1 (uptime_is_floor_ratio {[1 := {[10; 11]}]}
    {[10 := [(0, 100, true)]; 11 := [(50, 150, false)]]} 1 {[10; 11]} 0 150
    _ _ _ _ _)).
  - reflexivity.
  - vm_compute. discriminate.
  - apply (bool_decide_unpack _). vm_compute. exact I.
  - apply (bool_decide_unpack _). vm_compute. exact I.
  - lia.
Defined.

(** C3. A station none of whose chargers has a report, or whose window
    (minimum start and maximum end over all its chargers' reports, up or
    down) has [window_end ≤ window_start], gets uptime 0. *)
Theorem uptime_zero_without_window
    (s2c : gmap Z (gset Z)) (reports : gmap Z (list report))
    (sid : Z) (chargers : gset Z) :
  s2c !! sid = Some chargers →
  ((∀ cid, cid ∈ chargers → default [] (reports !! cid) = [])
   ∨ ∃ ws we,
       is_min ws (starts (station_reports (elements chargers) reports))
       ∧ is_max we (ends (station_reports (elements chargers) reports))
       ∧ we ≤ ws) →
  compute_station_uptime s2c reports !! sid = Some 0.
Proof.
  intros Hs Hcase.
  rewrite compute_station_uptime_lookup, Hs. simpl. f_equal.
  rewrite station_uptime_eq.
  destruct Hcase as [Hnone|(ws & we & Hmin & Hmax & Hle)].
  - rewrite station_reports_nil; [done|].
    intros cid Hc. by apply Hnone, elem_of_elements.
  - assert (Hne : station_reports (elements chargers) reports ≠ []).
    { intros Heq. rewrite Heq in Hmin. destruct Hmin as [Hin _].
      by apply elem_of_nil in Hin. }
    rewrite (window_uptime_window _ ws we) by done.
    by rewrite bool_decide_eq_true_2.
Qed.

Lemma uptime_zero_without_window_witness :
  compute_station_uptime {[7 := {[3]}]} {[4 := [(0, 5, true)]]} !! 7 = Some 0.
Proof.
  apply (uptime_zero_without_window {[7 := {[3]}]} {[4 := [(0, 5, true)]]} 7 {[3]}).
  - reflexivity.
  - left. intros cid Hc. apply elem_of_singleton in Hc. subst cid. reflexivity.
Defined.

(** C8. Merging a list and merging any permutation of it give the same
    output; hence the percentage computed from a station's reports is the
    same for every order in which the reports are collected, and in
    particular for every order in which the station's chargers are
    visited. *)
Theorem merge_order_independent
    (l l' : list (Z * Z)) (rs rs' : list report) (chargers chargers' : list Z)
    (reports : gmap Z (list report)) :
  l ≡ₚ l' → rs ≡ₚ rs' → chargers ≡ₚ chargers' →
  merge_intervals l = merge_intervals l'
  ∧ uptime_of_reports rs = uptime_of_reports rs'
  ∧ station_uptime chargers reports = station_uptime chargers' reports.
Proof.
  intros Hl Hrs Hc. split_and!.
  - by apply merge_intervals_perm.
  - by apply uptime_of_reports_perm.
  - rewrite !station_uptime_eq.
    by apply uptime_of_reports_perm, station_reports_perm.
Qed.

Lemma merge_order_independent_witness :
  merge_intervals [(0, 10); (5, 20)] = merge_intervals [(5, 20); (0, 10)]
  ∧ uptime_of_reports [(0, 10, true); (5, 20, false)]
    = uptime_of_reports [(5, 20, false); (0, 10, true)]
  ∧ station_uptime [1; 2] {[1 := [(0, 4, true)]; 2 := [(2, 8, false)]]}
    = station_uptime [2; 1] {[1 := [(0, 4, true)]; 2 := [(2, 8, false)]]}.
Proof.
  apply (merge_order_independent [(0, 10); (5, 20)] [(5, 20); (0, 10)]
           [(0, 10, true); (5, 20, false)] [(5, 20, false); (0, 10, true)]
           [1; 2] [2; 1]); apply perm_swap.
Defined.

(** ** The parser loop *)

Lemma loop_app l1 : ∀ l2 st,
  loop (l1 ++ l2) st = rbind (loop l1 st) (loop l2).
Proof.
  induction l1 as [|ln l1 IH]; intros l2 st; simpl; [done|].
  destruct (step st ln) as [st'|e]; simpl; [apply IH | done].
Qed.

Lemma loop_reach_err pre ln post st0 st e :
  loop pre st0 = Ok st → step st ln = Err e →
  loop (pre ++ ln :: post) st0 = Err e.
Proof. intros Hpre Hstep. rewrite loop_app, Hpre. simpl. by rewrite Hstep. Qed.

Lemma loop_reach_ok pre ln st0 st st' :
  loop pre st0 = Ok st → step st ln = Ok st' →
  loop (pre ++ [ln]) st0 = Ok st'.
Proof. intros Hpre Hstep. rewrite loop_app, Hpre. simpl. by rewrite Hstep. Qed.

Lemma first_error_prefix pre post e :
  parse_lines pre = Err e → parse_lines (pre ++ post) = Err e.
Proof.
  unfold parse_lines. intros Hpre. by rewrite fmap_app, loop_app, Hpre.
Qed.

Lemma step_data_line st ln :
  data_line ln →
  step st ln =
  if bool_decide (state st = 1) then station_line st ln
  else if bool_decide (state st = 2) then report_line st ln
  else Ok st.
Proof.
  intros (H1 & H2 & H3 & H4). unfold step.
  rewrite (bool_decide_eq_false_2 _ H1), H2.
  by rewrite (bool_decide_eq_false_2 _ H3), (bool_decide_eq_false_2 _ H4).
Qed.

(** ** Station lines *)

Lemma alter_union_nil (station_id : Z) (s2c : gmap Z (gset Z)) :
  alter (λ cs, cs ∪ list_to_set []) station_id s2c = s2c.
Proof.
  apply map_eq. intros k. destruct (decide (station_id = k)) as [->|Hne].
  - rewrite lookup_alter_eq. destruct (s2c !! k) as [cs|]; simpl; [|done].
    f_equal. apply (right_id_L ∅ (∪)).
  - by rewrite lookup_alter_ne.
Qed.

Lemma alter_union_cons (station_id cid : Z) (rest : list Z) (s2c : gmap Z (gset Z)) :
  alter (λ cs, cs ∪ list_to_set rest) station_id
    (alter (λ cs, cs ∪ {[cid]}) station_id s2c)
  = alter (λ cs, cs ∪ list_to_set (cid :: rest)) station_id s2c.
Proof.
  apply map_eq. intros k. destruct (decide (station_id = k)) as [->|Hne].
  - rewrite !lookup_alter_eq. destruct (s2c !! k) as [cs|]; simpl; [|done].
    f_equal. by rewrite (assoc_L (∪)).
  - by rewrite !lookup_alter_ne.
Qed.

Lemma bind_chargers_head station_id cid rest s2c c2s :
  (∀ owner, c2s !! cid = Some owner → owner = station_id) →
  bind_chargers station_id (cid :: rest) s2c c2s
  = bind_chargers station_id rest
      (alter (λ cs, cs ∪ {[cid]}) station_id s2c) (<[cid := station_id]> c2s).
Proof.
  intros Hown. simpl. destruct (c2s !! cid) as [owner|] eqn:Hl; [|done].
  rewrite bool_decide_eq_false_2; [done|]. intros Hne. by apply Hne, Hown.
Qed.

Lemma conflict_head_free c2s station_id cid rest :
  (∀ owner, c2s !! cid = Some owner → owner = station_id) →
  conflict c2s station_id (cid :: rest)
  ↔ conflict (<[cid := station_id]> c2s) station_id rest.
Proof.
  intros Hown. unfold conflict. split.
  - intros (c & o & Hc & Hl & Ho).
    apply elem_of_cons in Hc as [->|Hc]; [by apply Hown in Hl|].
    exists c, o. split_and!; auto.
    rewrite lookup_insert_ne; [done|]. intros <-. by apply Hown in Hl.
  - intros (c & o & Hc & Hl & Ho). exists c, o. split_and!; auto.
    + by apply list_elem_of_further.
    + destruct (decide (cid = c)) as [->|Hne].
      * rewrite lookup_insert_eq in Hl. congruence.
      * by rewrite lookup_insert_ne in Hl.
Qed.

(** Binding the chargers of a line either succeeds, adding them all to the
    station's set, or stops at a charger owned by another station. *)
Lemma bind_chargers_cases station_id charger_ids : ∀ s2c c2s,
  (¬ conflict c2s station_id charger_ids
   ∧ ∃ c2s', bind_chargers station_id charger_ids s2c c2s
             = Ok (alter (λ cs, cs ∪ list_to_set charger_ids) station_id s2c, c2s'))
  ∨ (∃ cid owner, cid ∈ charger_ids ∧ c2s !! cid = Some owner
       ∧ owner ≠ station_id
       ∧ bind_chargers station_id charger_ids s2c c2s = Err (MultipleStations cid)).
Proof.
  induction charger_ids as [|cid rest IH]; intros s2c c2s.
  - left. split.
    + intros (c & o & Hc & _). by apply elem_of_nil in Hc.
    + exists c2s. simpl. by rewrite alter_union_nil.
  - assert (Hcases :
      (∀ owner, c2s !! cid = Some owner → owner = station_id)
      ∨ ∃ owner, c2s !! cid = Some owner ∧ owner ≠ station_id).
    { destruct (c2s !! cid) as [owner|]; [|left; intros o; congruence].
      destruct (decide (owner = station_id)) as [->|Hne].
      - left. intros o. congruence.
      - right. eauto. }
    destruct Hcases as [Hown|(owner & Hl & Hne)].
    + rewrite bind_chargers_head by done.
      destruct (IH (alter (λ cs, cs ∪ {[cid]}) station_id s2c)
                   (<[cid := station_id]> c2s))
        as [[Hnc [c2s' Hok]]|(c & o & Hin & Hlc & Ho & Herr)].
      * left. split; [by rewrite conflict_head_free|].
        exists c2s'. by rewrite Hok, alter_union_cons.
      * right. exists c, o. split_and!; auto.
        -- by apply list_elem_of_further.
        -- destruct (decide (cid = c)) as [->|Hcne].
           ++ rewrite lookup_insert_eq in Hlc. congruence.
           ++ by rewrite lookup_insert_ne in Hlc.
    + right. exists cid, owner. split_and!; auto.
      * apply list_elem_of_here.
      * simpl. rewrite Hl. by rewrite bool_decide_eq_true_2.
Qed.

Lemma alter_ensured (station_id : Z) (cids : list Z) (s2c : gmap Z (gset Z)) :
  alter (λ cs, cs ∪ list_to_set cids) station_id
    match s2c !! station_id with
    | None => <[station_id := ∅]> s2c
    | Some _ => s2c
    end
  = apply_entry s2c (station_id, cids).
Proof.
  unfold apply_entry. simpl. apply map_eq. intros k.
  destruct (decide (station_id = k)) as [->|Hne].
  - rewrite lookup_alter_eq, lookup_insert_eq.
    destruct (s2c !! k) as [cs|] eqn:Hl; simpl.
    + by rewrite Hl.
    + by rewrite lookup_insert_eq.
  - rewrite lookup_alter_ne, lookup_insert_ne by done.
    destruct (s2c !! station_id); [done|]. by rewrite lookup_insert_ne.
Qed.

Lemma station_line_cases st ln station_id cids :
  station_tokens ln = Some (station_id, cids) →
  (¬ conflict (charger_to_station st) station_id cids
   ∧ ∃ st', station_line st ln = Ok st'
       ∧ state st' = state st ∧ reports st' = reports st
       ∧ station_to_chargers st'
         = apply_entry (station_to_chargers st) (station_id, cids))
  ∨ (∃ cid owner, cid ∈ cids ∧ charger_to_station st !! cid = Some owner
       ∧ owner ≠ station_id
       ∧ station_line st ln = Err (MultipleStations cid)).
Proof.
  unfold station_tokens, station_line.
  destruct (Py.split ln) as [|p0 ptail]; [done|].
  destruct (Py.int p0) as [sid|]; [|done].
  destruct (charger_ids_of ln ptail []) as [ids|e]; [|done].
  intros [= -> ->]. simpl.
  destruct (bind_chargers_cases station_id cids
              match station_to_chargers st !! station_id with
              | None => <[station_id := ∅]> (station_to_chargers st)
              | Some _ => station_to_chargers st
              end (charger_to_station st))
    as [[Hnc [c2s' Hok]]|(c & o & Hin & Hlc & Ho & Herr)].
  - left. split; [done|]. rewrite Hok. simpl. eexists. split; [done|].
    simpl. split_and!; auto. apply alter_ensured.
  - right. exists c, o. split_and!; auto. by rewrite Herr.
Qed.

Lemma station_line_no_tokens st ln st' :
  station_tokens ln = None → station_line st ln = Ok st' → st' = st.
Proof.
  unfold station_tokens, station_line.
  destruct (Py.split ln) as [|p0 ptail]; [by intros _ [= <-]|].
  destruct (Py.int p0) as [sid|]; [|done].
  destruct (charger_ids_of ln ptail []) as [ids|e]; done.
Qed.

(** ** Letter case *)

Lemma lower_char_letter (w c : ascii) :
  (97 ≤ N_of_ascii w ≤ 122)%N →
  Py.lower_char c = w ↔ c = w ∨ (N_of_ascii c + 32 = N_of_ascii w)%N.
Proof.
  intros Hw. unfold Py.lower_char, Py.code.
  pose proof (N_ascii_bounded c) as Hc.
  destruct (_ || _)%bool eqn:Hcond.
  - assert (Hrange : (65 ≤ N_of_ascii c ≤ 90 ∨ 192 ≤ N_of_ascii c ≤ 222)%N).
    { apply orb_true_iff in Hcond as [H|H].
      - apply andb_true_iff in H as [H1 H2].
        apply N.leb_le in H1, H2. lia.
      - apply andb_true_iff in H as [H _].
        apply andb_true_iff in H as [H1 H2].
        apply N.leb_le in H1, H2. lia. }
    split.
    + intros <-. right. rewrite N_ascii_embedding; lia.
    + intros [->|Heq]; [lia|].
      rewrite Heq. apply ascii_N_embedding.
  - assert (Hrange : ¬ (65 ≤ N_of_ascii c ≤ 90)%N).
    { intros [H1 H2]. apply orb_false_iff in Hcond as [H _].
      apply andb_false_iff in H as [H|H]; apply N.leb_gt in H; lia. }
    split; [by left|]. intros [?|?]; [done | lia].
Qed.

Lemma lower_spells word : ∀ s,
  lower_letters word → Py.lower s = word ↔ spells word s.
Proof.
  induction word as [|w word IH]; intros [|c s] Hword; simpl; try done.
  destruct Hword as [Hw Hword].
  rewrite <- (IH s Hword), <- (lower_char_letter w c Hw).
  split; [by intros [= -> ->] | by intros [-> ->]].
Qed.

Lemma lower_true s : Py.lower s = "true" ↔ spells "true" s.
Proof. apply lower_spells. simpl. repeat split; by vm_compute. Qed.

Lemma lower_false s : Py.lower s = "false" ↔ spells "false" s.
Proof. apply lower_spells. simpl. repeat split; by vm_compute. Qed.

(** ** Report lines *)

Lemma report_line_keeps st ln st' :
  report_line st ln = Ok st' →
  state st' = state st ∧ station_to_chargers st' = station_to_chargers st.
Proof.
  unfold report_line.
  destruct (Py.split ln) as [|p0 ptail]; [by intros [= <-]|].
  destruct (Py.startswith p0 "["); [by intros [= <-]|].
  destruct ptail as [|f1 [|f2 [|f3 [|f4 ptail]]]]; try done.
  destruct (Py.int p0); [|done].
  destruct (Py.int f1); [|by destruct (Py.int f2)].
  destruct (Py.int f2); [|done].
  case_bool_decide; [done|]. by intros [= <-].
Qed.

Lemma report_line_ok_iff st ln :
  ¬ bracket_first ln → Py.split ln ≠ [] →
  is_ok (report_line st ln) ↔ well_formed_report ln.
Proof.
  intros Hnb Hsplit. unfold report_line, well_formed_report.
  destruct (Py.split ln) as [|p0 ptail] eqn:Hs; [done|].
  destruct (Py.startswith p0 "[") eqn:Hb.
  { exfalso. apply Hnb. exists p0, ptail. by rewrite Hs. }
  destruct ptail as [|f1 [|f2 [|f3 [|f4 ptail]]]];
    try (split; [done | by intros (?&?&?&?&?&?&?&?&_)]).
  destruct (Py.int p0) as [cid|] eqn:H0.
  2:{ split; [done|]. intros (?&?&?&?&?&?&?&[= <- <- <- <-]&?&_). congruence. }
  destruct (Py.int f1) as [start|] eqn:H1.
  2:{ split; [by destruct (Py.int f2)|].
      intros (?&?&?&?&?&?&?&[= <- <- <- <-]&?&?&_). congruence. }
  destruct (Py.int f2) as [end_|] eqn:H2.
  2:{ split; [done|].
      intros (?&?&?&?&?&?&?&[= <- <- <- <-]&?&?&?&_). congruence. }
  case_bool_decide as Hflag.
  - split; [done|].
    intros (?&?&?&?&?&?&?&[= <- <- <- <-]&?&?&?&Hf).
    rewrite <- lower_true, <- lower_false in Hf. tauto.
  - split; [|done]. intros _. exists p0, f1, f2, f3, cid, start, end_.
    split_and!; auto. rewrite <- lower_true, <- lower_false.
    destruct (decide (Py.lower f3 = "true")); [by left|].
    destruct (decide (Py.lower f3 = "false")); [by right|]. tauto.
Qed.

Lemma report_line_bracket st ln :
  bracket_first ln → report_line st ln = Ok st.
Proof.
  intros (p0 & ptail & Hs & Hb). unfold report_line. by rewrite Hs, Hb.
Qed.

(** ** Stripped lines have a token *)

Lemma split_nil_all_space s : Py.split s = [] → all_space s.
Proof.
  induction s as [|c s IH]; simpl; [done|].
  destruct (Py.isspace c) eqn:Hc.
  - intros H. split; [done | by apply IH].
  - destruct s as [|c' s']; [done|].
    destruct (Py.isspace c'); [done|].
    by destruct (Py.split (String c' s')).
Qed.

Lemma rstrip_all_space s : all_space (Py.rstrip s) → Py.rstrip s = "".
Proof.
  induction s as [|c s IH]; simpl; [done|].
  destruct (Py.rstrip s) as [|c' r] eqn:Hr.
  - destruct (Py.isspace c) eqn:Hc; [done|].
    simpl. rewrite Hc. by intros [? _].
  - simpl. intros [_ Hall]. by specialize (IH Hall).
Qed.

Lemma stripped_has_token raw :
  Py.strip raw ≠ "" → Py.split (Py.strip raw) ≠ [].
Proof.
  intros Hne Hs. apply Hne. unfold Py.strip in *.
  by apply rstrip_all_space, split_nil_all_space.
Qed.

(** ** The ownership map after the loop *)

Lemma step_station_sets st ln st' :
  step st ln = Ok st' →
  station_to_chargers st'
  = foldl apply_entry (station_to_chargers st) (station_entries (state st) [ln]).
Proof.
  intros Hstep. unfold step in Hstep. simpl.
  case_bool_decide; [by injection Hstep as <-|].
  destruct (Py.startswith ln "#"); [by injection Hstep as <-|].
  case_bool_decide; [by injection Hstep as <-|].
  case_bool_decide; [by injection Hstep as <-|].
  case_bool_decide.
  - destruct (station_tokens ln) as [[sid cids]|] eqn:Htok.
    + destruct (station_line_cases st ln sid cids Htok)
        as [[_ (st2 & Hok & _ & _ & Hs2c)]|(c & o & _ & _ & _ & Herr)].
      * rewrite Hok in Hstep. injection Hstep as <-. by rewrite Hs2c.
      * congruence.
    + by rewrite (station_line_no_tokens st ln st' Htok Hstep).
  - case_bool_decide; [|by injection Hstep as <-].
    by destruct (report_line_keeps st ln st' Hstep) as [_ ->].
Qed.

Lemma step_mode st ln st' :
  step st ln = Ok st' →
  ∀ rest, station_entries (state st) (ln :: rest)
          = station_entries (state st) [ln] ++ station_entries (state st') rest.
Proof.
  intros Hstep rest. unfold step in Hstep. simpl.
  case_bool_decide; [by injection Hstep as <-|].
  destruct (Py.startswith ln "#"); [by injection Hstep as <-|].
  case_bool_decide; [by injection Hstep as <-|].
  case_bool_decide; [by injection Hstep as <-|].
  case_bool_decide.
  - destruct (station_tokens ln) as [[sid cids]|] eqn:Htok.
    + destruct (station_line_cases st ln sid cids Htok)
        as [[_ (st2 & Hok & Hst & _)]|(c & o & _ & _ & _ & Herr)].
      * rewrite Hok in Hstep. injection Hstep as <-. by rewrite Hst.
      * congruence.
    + by rewrite (station_line_no_tokens st ln st' Htok Hstep).
  - case_bool_decide; [|by injection Hstep as <-].
    by destruct (report_line_keeps st ln st' Hstep) as [-> _].
Qed.

Lemma loop_station_sets lines : ∀ st0 st,
  loop lines st0 = Ok st →
  station_to_chargers st
  = foldl apply_entry (station_to_chargers st0)
      (station_entries (state st0) lines).
Proof.
  induction lines as [|ln lines IH]; intros st0 st Hloop.
  - by injection Hloop as <-.
  - simpl in Hloop. destruct (step st0 ln) as [st1|e] eqn:Hstep; [|done].
    simpl in Hloop. rewrite (step_mode _ _ _ Hstep), foldl_app.
    rewrite <- (step_station_sets _ _ _ Hstep). by apply IH.
Qed.

Lemma listed_cons station_id entry entries :
  listed station_id (entry :: entries)
  = (if bool_decide (entry.1 = station_id) then list_to_set entry.2 else ∅)
    ∪ listed station_id entries.
Proof. reflexivity. Qed.

Lemma fold_entries_lookup entries : ∀ (m : gmap Z (gset Z)) station_id,
  foldl apply_entry m entries !! station_id
  = match m !! station_id with
    | Some cs => Some (cs ∪ listed station_id entries)
    | None =>
        if decide (station_id ∈ entries.*1)
        then Some (listed station_id entries) else None
    end.
Proof.
  induction entries as [|[sid cids] entries IH]; intros m station_id.
  - simpl. destruct (m !! station_id) as [cs|].
    + f_equal. unfold listed. simpl. by rewrite (right_id_L ∅ (∪)).
    + done.
  - simpl. rewrite IH, listed_cons. unfold apply_entry. simpl.
    destruct (decide (sid = station_id)) as [->|Hne].
    + rewrite lookup_insert_eq, bool_decide_eq_true_2 by done.
      destruct (m !! station_id) as [cs|]; simpl.
      * by rewrite (assoc_L (∪)).
      * rewrite decide_True by apply list_elem_of_here.
        by rewrite (left_id_L ∅ (∪)).
    + rewrite lookup_insert_ne, bool_decide_eq_false_2 by done.
      rewrite (left_id_L ∅ (∪)).
      destruct (m !! station_id) as [cs|]; [done|].
      destruct (decide (station_id ∈ entries.*1)) as [Hin|Hnin].
      * rewrite decide_True; [done|]. by apply list_elem_of_further.
      * rewrite decide_False; [done|].
        intros [?|?]%elem_of_cons; [congruence | done].
Qed.

(** ** The program *)

Lemma main_err fs prog path e :
  parse_input fs path = Err e →
  main fs [prog; path]
  = {| stdout := ["error"]; stderr := ["Error: " +:+ message e]; exit_code := 1 |}.
Proof. intros H. unfold main. by rewrite H. Qed.

Lemma main_ok fs prog path s2c c2s reps :
  parse_input fs path = Ok (s2c, c2s, reps) →
  main fs [prog; path]
  = {| stdout := emit (compute_station_uptime s2c reps)
                   <$> sorted (elements (dom (compute_station_uptime s2c reps)));
       stderr := [];
       exit_code := 0 |}.
Proof. intros H. unfold main. by rewrite H. Qed.

Lemma parse_input_text fs path text :
  fs path = FileText text →
  parse_input fs path
  = rbind (parse_lines (Py.readlines text))
      (λ st, Ok (station_to_chargers st, charger_to_station st, reports st)).
Proof. intros H. unfold parse_input. by rewrite H. Qed.

Lemma parse_input_err fs path text e :
  fs path = FileText text → parse_lines (Py.readlines text) = Err e →
  parse_input fs path = Err e.
Proof. intros Hf He. by rewrite (parse_input_text _ _ _ Hf), He. Qed.

Lemma sorted_strict l : NoDup l → StronglySorted Z.lt (sorted l).
Proof.
  intros Hnd. unfold sorted.
  assert (Hs : StronglySorted Z.le (merge_sort Z.le l))
    by (apply StronglySorted_merge_sort; apply _).
  assert (Hnd' : NoDup (merge_sort Z.le l)) by by rewrite merge_sort_Permutation.
  induction Hs as [|x l' Hl IH Hx]; [constructor|].
  apply NoDup_cons in Hnd' as [Hnin Hnd']. constructor; [by apply IH|].
  rewrite Forall_forall in Hx |- *. intros y Hy.
  specialize (Hx y Hy). assert (x ≠ y) by (by intros ->). lia.
Qed.

(** C4. On the example document the program succeeds and prints the single
    line [1 66]: the window is [0, 150], the merged up-intervals are
    [(0, 100)], the covered duration is 100 and the percentage is
    [100 * 100 / 150 = 66]. *)
Theorem end_to_end_example (prog path : string) :
  main (λ _, FileText example_document) [prog; path]
  = {| stdout := ["1 66"]; stderr := []; exit_code := 0 |}
  ∧ ∃ st, parse_lines (Py.readlines example_document) = Ok st
      ∧ station_to_chargers st = {[1 := {[10; 11]}]}
      ∧ is_min 0 (starts (station_reports (elements ({[10; 11]} : gset Z)) (reports st)))
      ∧ is_max 150 (ends (station_reports (elements ({[10; 11]} : gset Z)) (reports st)))
      ∧ merge_intervals (ups (station_reports (elements ({[10; 11]} : gset Z)) (reports st)))
        = [(0, 100)]
      ∧ clipped_total [(0, 100)] 0 150 = 100
      ∧ (100 * 100) `div` (150 - 0) = 66.
Proof.
  split; [by vm_compute|].
  eexists. split; [by vm_compute|].
  split; [by vm_compute|].
  split; [apply (bool_decide_unpack _); by vm_compute|].
  split; [apply (bool_decide_unpack _); by vm_compute|].
  split; [by vm_compute|]. split; by vm_compute.
Qed.

(** ** Printing integers *)

Lemma string_app_assoc (a b c : string) : (a +:+ b) +:+ c = a +:+ (b +:+ c).
Proof. induction a as [|x a IH]; [done | exact (f_equal (String x) IH)]. Qed.

Lemma string_app_nil_r (a : string) : a +:+ "" = a.
Proof. induction a as [|x a IH]; [done | exact (f_equal (String x) IH)]. Qed.

Lemma digit_pretty (d : N) : (d < 10)%N → digit (pretty_N_char d) (Z.of_N d).
Proof.
  intros Hd.
  assert (d = 0 ∨ d = 1 ∨ d = 2 ∨ d = 3 ∨ d = 4 ∨ d = 5 ∨ d = 6 ∨ d = 7
          ∨ d = 8 ∨ d = 9)%N as Hcases by lia.
  repeat destruct Hcases as [->|Hcases]; try subst d; constructor.
Qed.

Lemma digit_zero c d : digit c d → c = "0"%char ↔ d = 0.
Proof. destruct 1; split; (done || lia). Qed.

Lemma numeral_head s n :
  numeral s n → ∃ c r, s = String c r.
Proof.
  destruct 1 as [c d _|s n c d Hs _]; [by eexists _, _|].
  destruct s as [|a r].
  - by exists c, EmptyString.
  - by exists a, (r +:+ String c EmptyString).
Qed.

Lemma startswith_zero_cons c r :
  Py.startswith (String c r) "0" = if ascii_dec "0" c then true else false.
Proof.
  unfold Py.startswith.
  destruct r; cbn [String.prefix]; by destruct (ascii_dec "0" c).
Qed.

Lemma startswith_zero_app s n t :
  numeral s n → Py.startswith (s +:+ t) "0" = Py.startswith s "0".
Proof.
  intros Hnum. destruct (numeral_head _ _ Hnum) as (c & r & ->).
  change (String c r +:+ t) with (String c (r +:+ t)).
  by rewrite !startswith_zero_cons.
Qed.

(** The digits that the printer puts before its accumulator. *)
Lemma pretty_N_go_numeral (x : N) :
  (0 < x)%N →
  ∃ ds, numeral ds (Z.of_N x) ∧ ¬ Py.startswith ds "0" = true
        ∧ ∀ s, pretty_N_go x s = ds +:+ s.
Proof.
  induction (N.lt_wf_0 x) as [x _ IH]. intros Hx.
  pose proof (N.div_mod x 10 ltac:(lia)) as Hdm.
  pose proof (N.mod_lt x 10 ltac:(lia)) as Hm.
  pose proof (digit_pretty (x `mod` 10)%N Hm) as Hdig.
  destruct (decide (x < 10)%N) as [Hsmall|Hbig].
  - assert (Hq : (x `div` 10 = 0)%N) by (apply N.div_small; lia).
    exists (String (pretty_N_char (x `mod` 10)) "").
    assert (Hval : Z.of_N (x `mod` 10) = Z.of_N x) by lia.
    split_and!.
    + rewrite <- Hval. by constructor.
    + rewrite startswith_zero_cons.
      destruct (ascii_dec "0" (pretty_N_char (x `mod` 10))) as [Heq|]; [|done].
      symmetry in Heq. apply (digit_zero _ _ Hdig) in Heq. lia.
    + intros s. rewrite pretty_N_go_step by done. by rewrite Hq, pretty_N_go_0.
  - assert (Hq : (0 < x `div` 10)%N) by (apply N.div_str_pos; lia).
    destruct (IH (x `div` 10)%N) as (ds & Hnum & Hlead & Hgo);
      [apply N.div_lt; lia | done |].
    exists (ds +:+ String (pretty_N_char (x `mod` 10)) "").
    split_and!.
    + replace (Z.of_N x)
        with (10 * Z.of_N (x `div` 10) + Z.of_N (x `mod` 10)) by lia.
      by constructor.
    + by rewrite (startswith_zero_app _ _ _ Hnum).
    + intros s. rewrite pretty_N_go_step by done.
      by rewrite Hgo, string_app_assoc.
Qed.

Lemma str_positive (p : positive) :
  numeral (pretty (N.pos p)) (Z.pos p)
  ∧ ¬ Py.startswith (pretty (N.pos p)) "0" = true.
Proof.
  destruct (pretty_N_go_numeral (N.pos p)) as (ds & Hnum & Hlead & Hgo); [lia|].
  unfold pretty, pretty_N. rewrite decide_False by done.
  rewrite Hgo, string_app_nil_r. by split.
Qed.

(** What [str] prints for an integer is its decimal text. *)
Lemma str_decimal (n : Z) : decimal_of n (Py.str n).
Proof.
  unfold decimal_of, Py.str. destruct n as [|p|p].
  - by left.
  - right. left. destruct (str_positive p) as [Hnum Hlead].
    split_and!; [lia | exact Hnum | exact Hlead].
  - right. right. destruct (str_positive p) as [Hnum Hlead].
    split; [lia|]. exists (pretty (N.pos p)). split_and!; [done | exact Hnum | exact Hlead].
Qed.

(** C9. When parsing succeeds, standard output holds exactly one line per
    station of the parsed model, in strictly ascending numeric order of
    station id; each line is the decimal text of the station id, one space
    and the decimal text of that station's percentage; nothing else is
    printed and the exit status is 0. *)
Theorem output_one_line_per_station
    (fs : string → file) (prog path : string)
    (s2c : gmap Z (gset Z)) (c2s : gmap Z Z) (reps : gmap Z (list report)) :
  parse_input fs path = Ok (s2c, c2s, reps) →
  ∃ ids : list Z,
    StronglySorted Z.lt ids
    ∧ (∀ sid, sid ∈ ids ↔ is_Some (s2c !! sid))
    ∧ Forall2
        (λ sid line,
           ∃ chargers id_text pct_text,
             s2c !! sid = Some chargers
             ∧ decimal_of sid id_text
             ∧ decimal_of (station_uptime (elements chargers) reps) pct_text
             ∧ line = id_text +:+ " " +:+ pct_text)
        ids (stdout (main fs [prog; path]))
    ∧ stderr (main fs [prog; path]) = []
    ∧ exit_code (main fs [prog; path]) = 0.
Proof.
  intros Hparse. rewrite (main_ok _ _ _ _ _ _ Hparse). simpl.
  exists (sorted (elements (dom (compute_station_uptime s2c reps)))).
  assert (Hmem : ∀ sid,
            sid ∈ sorted (elements (dom (compute_station_uptime s2c reps)))
            ↔ is_Some (s2c !! sid)).
  { intros sid.
    by rewrite sorted_elem_of, elem_of_elements, compute_station_uptime_dom,
      elem_of_dom. }
  split_and!; auto.
  - apply sorted_strict, NoDup_elements.
  - apply Forall2_fmap_r, Forall_Forall2_diag, Forall_forall.
    intros sid [chargers Hs]%Hmem.
    exists chargers, (Py.str sid),
      (Py.str (station_uptime (elements chargers) reps)).
    split_and!; auto using str_decimal.
    unfold emit. rewrite lookup_total_alt.
    by rewrite compute_station_uptime_lookup, Hs.
Qed.

Lemma output_one_line_per_station_witness :
  (∃ ids : list Z,
    StronglySorted Z.lt ids
    ∧ (∀ sid, sid ∈ ids
         ↔ is_Some (({[10 := {[1]}; 2 := {[3]}; -3 := ∅]} : gmap Z (gset Z)) !! sid))
    ∧ Forall2
        (λ sid line,
           ∃ chargers id_text pct_text,
             ({[10 := {[1]}; 2 := {[3]}; -3 := ∅]} : gmap Z (gset Z)) !! sid
               = Some chargers
             ∧ decimal_of sid id_text
             ∧ decimal_of
                 (station_uptime (elements chargers)
                    {[1 := [(0, 10, true); (10, 20, false)]; 3 := [(0, 5, true)]]})
                 pct_text
             ∧ line = id_text +:+ " " +:+ pct_text)
        ids (stdout (main (λ _, FileText three_stations_document) ["prog"; "in"]))
    ∧ stderr (main (λ _, FileText three_stations_document) ["prog"; "in"]) = []
    ∧ exit_code (main (λ _, FileText three_stations_document) ["prog"; "in"]) = 0)
  ∧ stdout (main (λ _, FileText three_stations_document) ["prog"; "in"])
    = ["-3 0"; "2 100"; "10 50"].
Proof.
  split.
  - apply (output_one_line_per_station (λ _, FileText three_stations_document)
             "prog" "in" {[10 := {[1]}; 2 := {[3]}; -3 := ∅]} {[1 := 10; 3 := 2]}
             {[1 := [(0, 10, true); (10, 20, false)]; 3 := [(0, 5, true)]]}).
    vm_compute. reflexivity.
  - vm_compute. reflexivity.
Defined.

(** C5, the claim as stated fails: charger 5 is bound to station 1 and then
    appears on a line of station 2, yet the run stops on the malformed
    token of that line, not on the conflict. *)
Lemma conflict_behind_bad_token :
  ∃ st, loop ["[Stations]"; "1 5"] initial = Ok st
    ∧ state st = 1
    ∧ charger_to_station st !! 5 = Some 1
    ∧ Py.split "2 5 x" = ["2"; "5"; "x"]
    ∧ Py.int "2" = Some 2 ∧ Py.int "5" = Some 5
    ∧ parse_lines ["[Stations]"; "1 5"; "2 5 x"] = Err (InvalidChargerId "2 5 x")
    ∧ ∀ cid, parse_lines ["[Stations]"; "1 5"; "2 5 x"] ≠ Err (MultipleStations cid).
Proof.
  eexists. split; [by vm_compute|].
  split_and!; by vm_compute.
Qed.

(** C5, amended. When the parser, in station mode, meets a line all of
    whose tokens [int] accepts and one of its charger ids is bound to a
    different station, parsing fails with the multi-station error, naming a
    charger of the line owned by another station; when every charger id of
    the line is unbound or bound to the line's own station, the line is
    accepted. *)
Theorem multi_station_conflict
    (raw pre post : list string) (ln : string) (st : pstate)
    (sid : Z) (cids : list Z) :
  Py.strip <$> raw = pre ++ ln :: post →
  loop pre initial = Ok st → state st = 1 → data_line ln →
  station_tokens ln = Some (sid, cids) →
  ((∃ cid owner, cid ∈ cids ∧ charger_to_station st !! cid = Some owner
                 ∧ owner ≠ sid) →
   ∃ cid owner, cid ∈ cids ∧ charger_to_station st !! cid = Some owner
     ∧ owner ≠ sid ∧ parse_lines raw = Err (MultipleStations cid))
  ∧ ((∀ cid owner, cid ∈ cids → charger_to_station st !! cid = Some owner →
        owner = sid) →
     is_ok (step st ln)).
Proof.
  intros Hraw Hpre Hmode Hdata Htok.
  assert (Hstep : step st ln = station_line st ln).
  { rewrite step_data_line by done. by rewrite bool_decide_eq_true_2. }
  destruct (station_line_cases st ln sid cids Htok)
    as [[Hnc (st' & Hok & _)]|(c & o & Hin & Hl & Ho & Herr)].
  - split.
    + intros Hc. by destruct Hnc.
    + intros _. by rewrite Hstep, Hok.
  - split.
    + intros _. exists c, o. split_and!; auto.
      unfold parse_lines. rewrite Hraw.
      apply (loop_reach_err pre ln post initial st); [done|].
      by rewrite Hstep.
    + intros Hown. destruct Ho. by apply (Hown c).
Qed.

Lemma multi_station_conflict_witness :
  ∃ cid owner, cid ∈ [5]
    ∧ ({[5 := 1]} : gmap Z Z) !! cid = Some owner ∧ owner ≠ 2
    ∧ parse_lines ["[Stations]"; " 1 5"; "2 5 "] = Err (MultipleStations cid).
Proof.
  refine (proj1 (multi_station_conflict
    ["[Stations]"; " 1 5"; "2 5 "] ["[Stations]"; "1 5"] [] "2 5"
    {| state := 1; station_to_chargers := {[1 := {[5]}]};
       charger_to_station := {[5 := 1]}; reports := ∅ |}
    2 [5] _ _ _ _ _) _).
  - reflexivity.
  - vm_compute. reflexivity.
  - reflexivity.
  - unfold data_line. split_and!; [discriminate | reflexivity | discriminate | discriminate].
  - vm_compute. reflexivity.
  - exists 5, 1. split_and!; [apply list_elem_of_here | reflexivity | discriminate].
Defined.

(** C10. When parsing succeeds, the charger set of a station is the union
    of the charger ids listed on all the station lines that carry its id
    (and a station id on no station line is absent from the map).  A
    station line whose station id is already present, and none of whose
    chargers belongs to another station, is accepted and extends the
    existing set. *)
Theorem station_lines_accumulate (raw : list string) (final : pstate) (sid : Z) :
  parse_lines raw = Ok final →
  station_to_chargers final !! sid
  = (if decide (sid ∈ (station_entries 0 (Py.strip <$> raw)).*1)
     then Some (listed sid (station_entries 0 (Py.strip <$> raw)))
     else None)
  ∧ ∀ pre ln cids st cs,
      loop pre initial = Ok st → state st = 1 → data_line ln →
      station_tokens ln = Some (sid, cids) →
      station_to_chargers st !! sid = Some cs →
      (∀ cid owner, cid ∈ cids → charger_to_station st !! cid = Some owner →
         owner = sid) →
      ∃ st', loop (pre ++ [ln]) initial = Ok st'
        ∧ station_to_chargers st' !! sid = Some (cs ∪ list_to_set cids).
Proof.
  intros Hparse. split.
  - unfold parse_lines in Hparse.
    rewrite (loop_station_sets _ _ _ Hparse), fold_entries_lookup.
    change (station_to_chargers initial) with (∅ : gmap Z (gset Z)).
    change (state initial) with 0.
    by rewrite lookup_empty.
  - intros pre ln cids st cs Hpre Hmode Hdata Htok Hcs Hown.
    assert (Hstep : step st ln = station_line st ln).
    { rewrite step_data_line by done. by rewrite bool_decide_eq_true_2. }
    destruct (station_line_cases st ln sid cids Htok)
      as [[_ (st' & Hok & _ & _ & Hs2c)]|(c & o & Hin & Hl & Ho & _)].
    + exists st'. split.
      * apply (loop_reach_ok pre ln initial st); [done|]. by rewrite Hstep.
      * rewrite Hs2c. unfold apply_entry. simpl.
        by rewrite lookup_insert_eq, Hcs.
    + destruct Ho. by apply (Hown c).
Qed.

Lemma station_lines_accumulate_witness :
  station_to_chargers
    {| state := 1;
       station_to_chargers := {[1 := {[10; 11]}; 2 := {[20]}]};
       charger_to_station := {[10 := 1; 11 := 1; 20 := 2]};
       reports := ∅ |} !! 1
  = (if decide (1 ∈ (station_entries 0
        (Py.strip <$> ["[Stations]"; "1 10"; "2 20"; "1 11 10"])).*1)
     then Some (listed 1 (station_entries 0
        (Py.strip <$> ["[Stations]"; "1 10"; "2 20"; "1 11 10"])))
     else None)
  ∧ ∃ st', loop (["[Stations]"; "1 10"; "2 20"] ++ ["1 11 10"]) initial = Ok st'
      ∧ station_to_chargers st' !! 1 = Some ({[10]} ∪ list_to_set [11; 10]).
Proof.
  destruct (station_lines_accumulate ["[Stations]"; "1 10"; "2 20"; "1 11 10"]
    {| state := 1;
       station_to_chargers := {[1 := {[10; 11]}; 2 := {[20]}]};
       charger_to_station := {[10 := 1; 11 := 1; 20 := 2]};
       reports := ∅ |} 1) as [Hunion Hextend].
  { vm_compute. reflexivity. }
  split; [exact Hunion|].
  apply (Hextend ["[Stations]"; "1 10"; "2 20"] "1 11 10" [11; 10]
    {| state := 1;
       station_to_chargers := {[1 := {[10]}; 2 := {[20]}]};
       charger_to_station := {[10 := 1; 20 := 2]};
       reports := ∅ |} {[10]}).
  - vm_compute. reflexivity.
  - reflexivity.
  - unfold data_line. split_and!; [discriminate | reflexivity | discriminate | discriminate].
  - vm_compute. reflexivity.
  - vm_compute. reflexivity.
  - intros cid owner Hin Hl.
    apply elem_of_cons in Hin as [->|Hin%list_elem_of_singleton].
    + by vm_compute in Hl.
    + subst cid. vm_compute in Hl. by injection Hl as <-.
Defined.

Lemma bracket_first_marker ln :
  ln = "[Stations]" ∨ ln = "[Charger Availability Reports]" → bracket_first ln.
Proof. intros [->| ->]; eexists _, _; split; by vm_compute. Qed.

Lemma loop_single st ln : loop [ln] st = step st ln.
Proof. simpl. by destruct (step st ln). Qed.

Lemma parse_lines_snoc raw r st :
  parse_lines raw = Ok st → parse_lines (raw ++ [r]) = step st (Py.strip r).
Proof.
  unfold parse_lines. intros Hpre.
  by rewrite fmap_app, loop_app, Hpre, <- loop_single.
Qed.

(** Comment lines are dropped in report mode as in every mode. *)
Example comment_line_in_report_mode :
  Py.split "# 1 2" = ["#"; "1"; "2"]
  ∧ main (λ _, FileText ("[Charger Availability Reports]" +:+ nl +:+ " # 1 2" +:+ nl))
      ["prog"; "in"]
    = {| stdout := []; stderr := []; exit_code := 0 |}.
Proof. split; by vm_compute. Qed.

Example flags_in_any_case :
  spells "true" "TrUe" ∧ spells "false" "FALSE" ∧ ¬ spells "true" "tru"
  ∧ ¬ spells "true" "true " ∧ ¬ spells "false" "fa1se" ∧ ¬ spells "true" "TRUF".
Proof.
  split_and!; simpl; try (intros H; decompose [and or] H; done).
  - by repeat split; (by left) || (by right).
  - by repeat split; (by left) || (by right).
Qed.

(** C6. Take a line of the document that the parser meets in report mode
    and that, once stripped as the parser strips every line, is neither
    blank nor a comment (those are ignored in every mode).  If its first
    token begins with a bracket the line is skipped: no error, and no
    station, charger or report is recorded (the parser state is unchanged
    unless the line is one of the two section markers).  Otherwise the line
    is accepted exactly when it has four fields, the first three accepted by
    [int] and the fourth spelling [true] or [false] in any letter case; any
    other line makes the run print [error] on standard output and exit with
    the non-zero status 1. *)
Theorem report_line_validation
    (raw_pre raw_post : list string) (r : string) (st : pstate) :
  parse_lines raw_pre = Ok st → state st = 2 →
  Py.strip r ≠ "" → Py.startswith (Py.strip r) "#" = false →
  (bracket_first (Py.strip r) →
     ∃ st', parse_lines (raw_pre ++ [r]) = Ok st'
       ∧ reports st' = reports st
       ∧ station_to_chargers st' = station_to_chargers st
       ∧ charger_to_station st' = charger_to_station st
       ∧ (Py.strip r ≠ "[Stations]" →
          Py.strip r ≠ "[Charger Availability Reports]" → st' = st))
  ∧ (¬ bracket_first (Py.strip r) →
     (is_ok (parse_lines (raw_pre ++ [r])) ↔ well_formed_report (Py.strip r)))
  ∧ (¬ bracket_first (Py.strip r) → ¬ well_formed_report (Py.strip r) →
     ∀ fs prog path text,
       fs path = FileText text → Py.readlines text = raw_pre ++ r :: raw_post →
       stdout (main fs [prog; path]) = ["error"]
       ∧ exit_code (main fs [prog; path]) = 1
       ∧ exit_code (main fs [prog; path]) ≠ 0).
Proof.
  intros Hpre Hmode Hne Hcomment.
  rewrite (parse_lines_snoc _ r _ Hpre).
  set (ln := Py.strip r) in *.
  assert (Htoken : Py.split ln ≠ []) by (by apply stripped_has_token).
  assert (Hreport : ln ≠ "[Stations]" → ln ≠ "[Charger Availability Reports]" →
                    step st ln = report_line st ln).
  { intros H1 H2. rewrite step_data_line by done.
    rewrite bool_decide_eq_false_2 by lia. by rewrite bool_decide_eq_true_2. }
  assert (Hplain : ¬ bracket_first ln →
                   ln ≠ "[Stations]" ∧ ln ≠ "[Charger Availability Reports]").
  { intros Hnb. split; intros Heq; apply Hnb, bracket_first_marker; auto. }
  split_and!.
  - intros Hb.
    destruct (decide (ln = "[Stations]")) as [->|H1].
    { eexists. split; [by vm_compute|]. by split_and!. }
    destruct (decide (ln = "[Charger Availability Reports]")) as [->|H2].
    { eexists. split; [by vm_compute|]. by split_and!. }
    exists st. rewrite Hreport by done. by rewrite report_line_bracket.
  - intros Hnb. destruct (Hplain Hnb) as [H1 H2].
    rewrite Hreport by done. by apply report_line_ok_iff.
  - intros Hnb Hbad fs prog path text Hfs Htext.
    destruct (Hplain Hnb) as [H1 H2].
    pose proof (Hreport H1 H2) as Hrl.
    destruct (step st ln) as [st'|e] eqn:Hstep.
    { exfalso. apply Hbad.
      apply (proj1 (report_line_ok_iff st ln Hnb Htoken)).
      by rewrite <- Hrl. }
    assert (Herr : parse_input fs path = Err e).
    { apply (parse_input_err _ _ text); [done|].
      rewrite Htext.
      change (raw_pre ++ r :: raw_post) with (raw_pre ++ [r] ++ raw_post).
      rewrite app_assoc. apply first_error_prefix.
      by rewrite (parse_lines_snoc _ r _ Hpre). }
    by rewrite (main_err _ _ _ _ Herr).
Qed.

Lemma report_line_validation_witness :
  stdout (main (λ _, FileText
            ("[Charger Availability Reports]" +:+ nl +:+ " 10 0 100 " +:+ nl))
          ["prog"; "in"]) = ["error"]
  ∧ exit_code (main (λ _, FileText
            ("[Charger Availability Reports]" +:+ nl +:+ " 10 0 100 " +:+ nl))
          ["prog"; "in"]) = 1
  ∧ exit_code (main (λ _, FileText
            ("[Charger Availability Reports]" +:+ nl +:+ " 10 0 100 " +:+ nl))
          ["prog"; "in"]) ≠ 0.
Proof.
  refine (proj2 (proj2 (report_line_validation
    [String.append "[Charger Availability Reports]" nl] []
    (String.append " 10 0 100 " nl)
    {| state := 2; station_to_chargers := ∅; charger_to_station := ∅;
       reports := ∅ |} _ _ _ _)) _ _ _ "prog" "in" _ _ _).
  - vm_compute. reflexivity.
  - reflexivity.
  - vm_compute. discriminate.
  - vm_compute. reflexivity.
  - intros (p0 & ptail & Hs & Hb). vm_compute in Hs.
    injection Hs as <- <-. vm_compute in Hb. discriminate.
  - intros (f0 & f1 & f2 & f3 & ? & ? & ? & Hs & _). vm_compute in Hs.
    discriminate.
  - reflexivity.
  - vm_compute. reflexivity.
Defined.

(** ** Worked examples *)

(** The overlap example of the specification: up-intervals (0,10) and
    (5,20) with window [0,20] merge into (0,20) and give 100. *)
Example overlap_merge_example :
  merge_intervals [(0, 10); (5, 20)] = [(0, 20)]
  ∧ uptime_of_reports [(0, 10, true); (5, 20, true)] = 100.
Proof. split; by vm_compute. Qed.

Example touching_intervals_merge :
  merge_intervals [(10, 20); (0, 10); (30, 31); (7, 7); (9, 3)]
  = [(0, 20); (30, 31)].
Proof. by vm_compute. Qed.

Example int_literals :
  Py.int "+5" = Some 5 ∧ Py.int "-12" = Some (-12) ∧ Py.int "1_000" = Some 1000
  ∧ Py.int "007" = Some 7 ∧ Py.int "1__0" = None ∧ Py.int "_1" = None
  ∧ Py.int "5a" = None ∧ Py.int "" = None ∧ Py.int "+" = None.
Proof. split_and!; by vm_compute. Qed.

Example flag_any_case :
  report_line initial "7 0 10 TrUe"
  = Ok {| state := 0; station_to_chargers := ∅; charger_to_station := ∅;
          reports := {[7 := [(0, 10, true)]]} |}.
Proof. by vm_compute. Qed.

(** * Further properties of the code *)

(** ** Calculator *)

Lemma window_uptime_range all_starts all_ends up_intervals :
  0 ≤ window_uptime all_starts all_ends up_intervals ≤ 100.
Proof.
  destruct all_starts as [|s0 ss]; [simpl; lia|].
  destruct all_ends as [|e0 es]; [simpl; lia|].
  rewrite window_uptime_cons. simpl. repeat case_bool_decide; lia.
Qed.

(** The result maps exactly the stations of the ownership map, each to an
    integer between 0 and 100, whatever the reports are. *)
Theorem results_cover_stations_in_range
    (s2c : gmap Z (gset Z)) (reps : gmap Z (list report)) :
  dom (compute_station_uptime s2c reps) = dom s2c
  ∧ ∀ sid pct, compute_station_uptime s2c reps !! sid = Some pct → 0 ≤ pct ≤ 100.
Proof.
  split; [apply compute_station_uptime_dom|].
  intros sid pct. rewrite compute_station_uptime_lookup.
  destruct (s2c !! sid) as [cs|]; [|done]. simpl. intros [= <-].
  rewrite station_uptime_eq, uptime_of_reports_eq. apply window_uptime_range.
Qed.

Lemma station_reports_ext chargers (reps reps' : gmap Z (list report)) :
  (∀ cid, cid ∈ chargers → reps !! cid = reps' !! cid) →
  station_reports chargers reps = station_reports chargers reps'.
Proof.
  unfold station_reports. induction chargers as [|c cs IH]; intros H; simpl; [done|].
  rewrite (H c) by apply list_elem_of_here. f_equal.
  apply IH. intros cid Hc. by apply H, list_elem_of_further.
Qed.

(** Reports attached to chargers that no station owns do not influence any
    result: two report maps that agree on every owned charger give the same
    percentages. *)
Theorem unowned_reports_ignored
    (s2c : gmap Z (gset Z)) (reps reps' : gmap Z (list report)) :
  (∀ sid cs cid, s2c !! sid = Some cs → cid ∈ cs → reps !! cid = reps' !! cid) →
  compute_station_uptime s2c reps = compute_station_uptime s2c reps'.
Proof.
  intros Hagree. apply map_eq. intros sid.
  rewrite !compute_station_uptime_lookup.
  destruct (s2c !! sid) as [cs|] eqn:Hs; [|done]. simpl. f_equal.
  rewrite !station_uptime_eq. f_equal. apply station_reports_ext.
  intros cid Hc. apply (Hagree sid cs); [done|]. by apply elem_of_elements.
Qed.

Lemma unowned_reports_ignored_witness :
  compute_station_uptime {[1 := {[10]}]} {[10 := [(0, 4, true)]; 99 := [(0, 9, false)]]}
  = compute_station_uptime {[1 := {[10]}]} {[10 := [(0, 4, true)]]}.
Proof.
  apply unowned_reports_ignored. intros sid cs cid Hs Hc.
  destruct (decide (sid = 1)) as [->|Hne].
  - rewrite lookup_singleton_eq in Hs. injection Hs as <-.
    apply elem_of_singleton in Hc. subst cid. reflexivity.
  - by rewrite lookup_singleton_ne in Hs.
Defined.

(** A station all of whose reports are down has uptime 0, whatever its
    window. *)
Theorem only_down_reports_zero
    (s2c : gmap Z (gset Z)) (reps : gmap Z (list report))
    (sid : Z) (chargers : gset Z) :
  s2c !! sid = Some chargers →
  ups (station_reports (elements chargers) reps) = [] →
  compute_station_uptime s2c reps !! sid = Some 0.
Proof.
  intros Hs Hups. rewrite compute_station_uptime_lookup, Hs. simpl. f_equal.
  rewrite station_uptime_eq, uptime_of_reports_eq, Hups.
  destruct (starts _) as [|s0 ss]; [done|].
  destruct (ends _) as [|e0 es]; [done|].
  rewrite window_uptime_cons. simpl. case_bool_decide; [done|].
  change (merge_intervals []) with (@nil (Z * Z)).
  change (clipped_total [] _ _) with 0. simpl.
  rewrite Z.div_0_l by lia. done.
Qed.

Lemma only_down_reports_zero_witness :
  compute_station_uptime {[1 := {[10]}]} {[10 := [(0, 4, false); (2, 9, false)]]} !! 1
  = Some 0.
Proof.
  apply (only_down_reports_zero _ _ 1 {[10]}).
  - reflexivity.
  - vm_compute. reflexivity.
Defined.

(** ** Clipping *)

Lemma clipped_total_nonneg l ws we : 0 ≤ clipped_total l ws we.
Proof.
  induction l as [|p l IH]; [done|]. rewrite clipped_total_cons. lia.
Qed.

Lemma clipped_total_ge_member l ws we p :
  p ∈ l → Z.min p.2 we - Z.max p.1 ws ≤ clipped_total l ws we.
Proof.
  induction l as [|q l IH]; intros Hin; [by apply elem_of_nil in Hin|].
  rewrite clipped_total_cons. pose proof (clipped_total_nonneg l ws we).
  apply elem_of_cons in Hin as [->|Hin]; [lia|]. specialize (IH Hin). lia.
Qed.

(** The clipped total is never negative, it is 0 for an empty or inverted
    clip range, it never exceeds the sum of the lengths of the non-empty
    intervals, and for intervals that are pairwise separated it never
    exceeds the length of the clip range. *)
Theorem clipped_total_bounds (l : list (Z * Z)) (ws we : Z) :
  0 ≤ clipped_total l ws we
  ∧ (we ≤ ws → clipped_total l ws we = 0)
  ∧ clipped_total l ws we ≤ foldr (λ p acc, Z.max 0 (p.2 - p.1) + acc) 0 l
  ∧ (StronglySorted gap l → Forall proper l → ws ≤ we →
     clipped_total l ws we ≤ we - ws).
Proof.
  split_and!.
  - apply clipped_total_nonneg.
  - intros Hw. induction l as [|p l IH]; [done|].
    rewrite clipped_total_cons, IH. lia.
  - induction l as [|p l IH]; [done|].
    rewrite clipped_total_cons. simpl. lia.
  - intros Hs Hp Hw. pose proof (clipped_total_bound ws we l Hs Hp). lia.
Qed.

Lemma clipped_total_bounds_witness :
  clipped_total [(0, 4); (6, 9)] 2 8 ≤ 8 - 2.
Proof.
  apply (clipped_total_bounds [(0, 4); (6, 9)] 2 8).
  - apply SSorted_cons.
    + apply SSorted_cons; [apply SSorted_nil | apply Forall_nil_2].
    + apply Forall_cons_2; [unfold gap; simpl; lia | apply Forall_nil_2].
  - apply Forall_cons_2; [unfold proper; simpl; lia|].
    apply Forall_cons_2; [unfold proper; simpl; lia | apply Forall_nil_2].
  - lia.
Defined.

(** In a list of separated non-empty intervals, a range all of whose points
    are covered lies inside a single interval. *)
Lemma covered_range_in_one l ws we :
  StronglySorted gap l → Forall proper l → ws < we →
  (∀ t, ws ≤ t < we → covers l t) →
  ∃ p, p ∈ l ∧ p.1 ≤ ws ∧ we ≤ p.2.
Proof.
  intros Hs Hp Hw Hcov.
  destruct (Hcov ws ltac:(lia)) as (p & Hin & Hp1 & Hp2).
  exists p. split_and!; auto.
  destruct (decide (we ≤ p.2)) as [|Hlt]; [done|]. exfalso.
  destruct (Hcov p.2 ltac:(lia)) as (q & Hqin & Hq1 & Hq2).
  apply list_elem_of_lookup_1 in Hin as [i Hi].
  apply list_elem_of_lookup_1 in Hqin as [j Hj].
  pose proof (proj1 (StronglySorted_lookup gap l) Hs) as Hgap.
  destruct (Z.lt_trichotomy (Z.of_nat i) (Z.of_nat j)) as [Hij|[Hij|Hij]].
  - specialize (Hgap i j p q ltac:(lia) Hi Hj). unfold gap in Hgap. lia.
  - assert (i = j) by lia. subst j. rewrite Hi in Hj. injection Hj as <-. lia.
  - specialize (Hgap j i q p ltac:(lia) Hj Hi). unfold gap in Hgap. lia.
Qed.

(** When the up-intervals of a station cover every point of its window, its
    uptime is 100. *)
Theorem covered_window_full
    (s2c : gmap Z (gset Z)) (reps : gmap Z (list report))
    (sid : Z) (chargers : gset Z) (ws we : Z) :
  s2c !! sid = Some chargers →
  is_min ws (starts (station_reports (elements chargers) reps)) →
  is_max we (ends (station_reports (elements chargers) reps)) →
  we > ws →
  (∀ t, ws ≤ t < we → covers (ups (station_reports (elements chargers) reps)) t) →
  compute_station_uptime s2c reps !! sid = Some 100.
Proof.
  intros Hs Hmin Hmax Hw Hcov.
  assert (Hne : station_reports (elements chargers) reps ≠ []).
  { intros Heq. rewrite Heq in Hmin. destruct Hmin as [Hin _].
    by apply elem_of_nil in Hin. }
  rewrite compute_station_uptime_lookup, Hs. simpl. f_equal.
  rewrite station_uptime_eq, (uptime_of_reports_positive _ ws we) by done.
  set (l := ups (station_reports (elements chargers) reps)) in *.
  destruct (merge_intervals_spec l) as (Hg & Hp & Hc).
  assert (Hcov' : ∀ t, ws ≤ t < we → covers (merge_intervals l) t).
  { intros t Ht. apply Hc. destruct (Hcov t Ht) as (p & Hin & Hi).
    exists p. split; [|done]. apply list_elem_of_filter. split; [|done].
    unfold inside in Hi. lia. }
  destruct (covered_range_in_one _ ws we Hg Hp ltac:(lia) Hcov')
    as (p & Hin & Hp1 & Hp2).
  pose proof (clipped_total_ge_member _ ws we p Hin) as Hge.
  pose proof (up_time_bound ws we l ltac:(lia)) as Hle.
  assert (Heq : clipped_total (merge_intervals l) ws we = we - ws) by lia.
  rewrite Heq, (Z.mul_comm (we - ws) 100), Z.div_mul by lia. done.
Qed.

Lemma covered_window_full_witness :
  compute_station_uptime {[1 := {[10; 11]}]}
    {[10 := [(0, 6, true); (2, 3, false)]; 11 := [(5, 9, true)]]} !! 1 = Some 100.
Proof.
  apply (covered_window_full _ _ 1 {[10; 11]} 0 9).
  - reflexivity.
  - apply (bool_decide_unpack _). by vm_compute.
  - apply (bool_decide_unpack _). by vm_compute.
  - lia.
  - intros t Ht. destruct (decide (t < 6)).
    + exists (0, 6). split; [|unfold inside; simpl; lia].
      apply (bool_decide_unpack _). by vm_compute.
    + exists (5, 9). split; [|unfold inside; simpl; lia].
      apply (bool_decide_unpack _). by vm_compute.
Defined.

(** ** Merger: canonical form *)

Lemma gap_head_least a l q :
  StronglySorted gap (a :: l) → Forall proper (a :: l) → q ∈ a :: l → a.1 ≤ q.1.
Proof.
  intros Hs Hp Hq. apply StronglySorted_inv in Hs as [_ Hhd].
  apply Forall_cons in Hp as [Hpa _].
  apply elem_of_cons in Hq as [->|Hq]; [lia|].
  rewrite Forall_forall in Hhd. specialize (Hhd q Hq).
  unfold gap, proper in *. lia.
Qed.

Lemma gap_head_start a l b l' :
  StronglySorted gap (a :: l) → Forall proper (a :: l) →
  StronglySorted gap (b :: l') → Forall proper (b :: l') →
  (∀ t, covers (a :: l) t → covers (b :: l') t) → b.1 ≤ a.1.
Proof.
  intros Hs Hp Hs' Hp' Hsub.
  assert (Ha : covers (a :: l) a.1).
  { exists a. split; [apply list_elem_of_here|].
    apply Forall_cons in Hp as [Hpa _]. unfold inside, proper in *. lia. }
  destruct (Hsub _ Ha) as (q & Hq & Hq1 & _).
  pose proof (gap_head_least b l' q Hs' Hp' Hq). lia.
Qed.

Lemma gap_head_end a l b l' :
  StronglySorted gap (a :: l) → Forall proper (a :: l) →
  StronglySorted gap (b :: l') → Forall proper (b :: l') →
  a.1 = b.1 →
  (∀ t, covers (b :: l') t → covers (a :: l) t) → b.2 ≤ a.2.
Proof.
  intros Hs Hp Hs' Hp' Hstart Hsub.
  destruct (decide (b.2 ≤ a.2)) as [|Hlt]; [done|]. exfalso.
  apply Forall_cons in Hp as [Hpa _]. unfold proper in Hpa.
  assert (Hb : covers (b :: l') a.2).
  { exists b. split; [apply list_elem_of_here|]. unfold inside. lia. }
  destruct (Hsub _ Hb) as (q & Hq & Hq1 & Hq2).
  apply StronglySorted_inv in Hs as [_ Hhd].
  apply elem_of_cons in Hq as [->|Hq]; [lia|].
  rewrite Forall_forall in Hhd. specialize (Hhd q Hq). unfold gap in Hhd. lia.
Qed.

Lemma gap_tail_covers a l l' :
  StronglySorted gap (a :: l) → StronglySorted gap (a :: l') →
  Forall proper (a :: l') →
  (∀ t, covers (a :: l) t → covers (a :: l') t) →
  ∀ t, covers l t → covers l' t.
Proof.
  intros Hs Hs' Hp' Hsub t (q & Hq & Hq1 & Hq2).
  apply StronglySorted_inv in Hs as [_ Hhd].
  rewrite Forall_forall in Hhd. pose proof (Hhd q Hq) as Hg. unfold gap in Hg.
  assert (Hc : covers (a :: l) t).
  { exists q. split; [by apply list_elem_of_further | done]. }
  apply Hsub, covers_cons in Hc as [[Ha1 Ha2]|Hc]; [lia | done].
Qed.

(** Two lists of separated non-empty intervals that cover the same points
    are the same list. *)
Lemma separated_unique l : ∀ l',
  StronglySorted gap l → Forall proper l →
  StronglySorted gap l' → Forall proper l' →
  (∀ t, covers l t ↔ covers l' t) → l = l'.
Proof.
  induction l as [|a l IH]; intros l' Hs Hp Hs' Hp' Hcov.
  - destruct l' as [|b l']; [done|]. exfalso.
    apply Forall_cons in Hp' as [Hpb _]. unfold proper in Hpb.
    apply (covers_nil b.1), Hcov. exists b.
    split; [apply list_elem_of_here | unfold inside; lia].
  - destruct l' as [|b l'].
    { exfalso. apply Forall_cons in Hp as [Hpa _]. unfold proper in Hpa.
      apply (covers_nil a.1), Hcov. exists a.
      split; [apply list_elem_of_here | unfold inside; lia]. }
    assert (H1 : a.1 = b.1).
    { pose proof (gap_head_start a l b l' Hs Hp Hs' Hp' (λ t, proj1 (Hcov t))).
      pose proof (gap_head_start b l' a l Hs' Hp' Hs Hp (λ t, proj2 (Hcov t))).
      lia. }
    assert (H2 : a.2 = b.2).
    { pose proof (gap_head_end a l b l' Hs Hp Hs' Hp' H1 (λ t, proj2 (Hcov t))).
      pose proof (gap_head_end b l' a l Hs' Hp' Hs Hp (eq_sym H1)
                    (λ t, proj1 (Hcov t))).
      lia. }
    assert (Hab : a = b) by (destruct a, b; simpl in *; congruence).
    subst b. f_equal.
    apply IH.
    + by apply StronglySorted_inv in Hs as [? _].
    + by apply Forall_cons in Hp as [_ ?].
    + by apply StronglySorted_inv in Hs' as [? _].
    + by apply Forall_cons in Hp' as [_ ?].
    + intros t. split.
      * apply (gap_tail_covers a l l'); auto. intros u. apply Hcov.
      * apply (gap_tail_covers a l' l); auto. intros u. apply Hcov.
Qed.

(** The merged list depends only on the set of points the input covers:
    inputs covering the same points merge to the same list, however the
    points are split among intervals. *)
Theorem merge_intervals_canonical (l l' : list (Z * Z)) :
  (∀ t, covers l t ↔ covers l' t) →
  merge_intervals l = merge_intervals l'.
Proof.
  intros Hcov.
  destruct (merge_intervals_spec l) as (Hg & Hp & Hc).
  destruct (merge_intervals_spec l') as (Hg' & Hp' & Hc').
  apply separated_unique; auto.
  assert (Hfilter : ∀ (k : list (Z * Z)) t,
            covers (filter (λ p : Z * Z, p.2 > p.1) k) t ↔ covers k t).
  { intros k t. unfold covers. split.
    - intros (p & Hin & Hi). apply list_elem_of_filter in Hin as [_ Hin]. eauto.
    - intros (p & Hin & Hi). exists p. split; [|done].
      apply list_elem_of_filter. split; [|done]. unfold inside in Hi. lia. }
  intros t. by rewrite Hc, Hc', !Hfilter.
Qed.

Lemma merge_intervals_canonical_witness :
  merge_intervals [(0, 3); (3, 8); (1, 2)] = merge_intervals [(4, 8); (0, 5); (9, 9)].
Proof.
  apply merge_intervals_canonical. intros t.
  assert (H1 : covers [(0, 3); (3, 8); (1, 2)] t ↔ 0 ≤ t < 8).
  { rewrite !covers_cons. pose proof (covers_nil t).
    unfold inside. simpl. intuition lia. }
  assert (H2 : covers [(4, 8); (0, 5); (9, 9)] t ↔ 0 ≤ t < 8).
  { rewrite !covers_cons. pose proof (covers_nil t).
    unfold inside. simpl. intuition lia. }
  by rewrite H1, H2.
Defined.

(** ** Merger: the output is built from the input *)

Lemma sweep_length rest : ∀ cs ce,
  (length (sweep rest cs ce []) ≤ S (length rest))%nat.
Proof.
  induction rest as [|[s e] rest IH]; intros cs ce; simpl; [lia|].
  repeat case_bool_decide.
  - specialize (IH cs e). lia.
  - specialize (IH cs ce). lia.
  - rewrite sweep_acc. simpl. specialize (IH s e). lia.
Qed.

Lemma sweep_endpoints rest : ∀ cs ce p,
  p ∈ sweep rest cs ce [] →
  (p.1 = cs ∨ ∃ q, q ∈ rest ∧ p.1 = q.1)
  ∧ (p.2 = ce ∨ ∃ q, q ∈ rest ∧ p.2 = q.2).
Proof.
  induction rest as [|[s e] rest IH]; intros cs ce p; simpl.
  - intros ->%list_elem_of_singleton. auto.
  - assert (Hlift : ∀ (P : Z * Z → Prop),
              (∃ q, q ∈ rest ∧ P q) → ∃ q, q ∈ (s, e) :: rest ∧ P q).
    { intros P (q & Hq & HP). exists q. split; [by apply list_elem_of_further | done]. }
    assert (Hhere : (s, e) ∈ (s, e) :: rest) by apply list_elem_of_here.
    repeat case_bool_decide.
    + intros Hin. destruct (IH cs e p Hin) as [H1 H2]. split.
      * destruct H1 as [|H1]; [by left | right; by apply Hlift].
      * destruct H2 as [->|H2]; [right; by exists (s, e) | right; by apply Hlift].
    + intros Hin. destruct (IH cs ce p Hin) as [H1 H2]. split.
      * destruct H1 as [|H1]; [by left | right; by apply Hlift].
      * destruct H2 as [|H2]; [by left | right; by apply Hlift].
    + rewrite sweep_acc. simpl. intros [->|Hin]%elem_of_cons; [auto|].
      destruct (IH s e p Hin) as [H1 H2]. split.
      * destruct H1 as [->|H1]; [right; by exists (s, e) | right; by apply Hlift].
      * destruct H2 as [->|H2]; [right; by exists (s, e) | right; by apply Hlift].
Qed.

(** The merge invents no endpoint and no interval: every output interval
    starts where some non-empty input interval starts and ends where some
    non-empty input interval ends, and the output is no longer than the
    input. *)
Theorem merge_intervals_from_input (l : list (Z * Z)) :
  (∀ p, p ∈ merge_intervals l →
     (∃ q, q ∈ l ∧ q.1 < q.2 ∧ q.1 = p.1) ∧ (∃ q, q ∈ l ∧ q.1 < q.2 ∧ q.2 = p.2))
  ∧ (length (merge_intervals l) ≤ length l)%nat.
Proof.
  rewrite merge_intervals_unfold.
  pose proof (py_sort_perm (filter (λ p : Z * Z, p.2 > p.1) l)) as Hperm.
  assert (Hfrom : ∀ q, q ∈ py_sort (filter (λ p : Z * Z, p.2 > p.1) l) →
                       q ∈ l ∧ q.1 < q.2).
  { intros q Hq. rewrite Hperm in Hq.
    apply list_elem_of_filter in Hq as [? ?]. split; [done | lia]. }
  pose proof (length_filter (λ p : Z * Z, p.2 > p.1) l) as Hlen.
  rewrite <- Hperm in Hlen.
  destruct (py_sort _) as [|[cs ce] rest]; [split; [|simpl; lia]|split].
  - intros p Hp. by apply elem_of_nil in Hp.
  - intros p Hp. destruct (sweep_endpoints rest cs ce p Hp) as [H1 H2].
    split.
    + destruct H1 as [H1|(q & Hq & H1)].
      * exists (cs, ce). destruct (Hfrom (cs, ce)) as [? ?];
          [apply list_elem_of_here | by split_and!].
      * exists q. destruct (Hfrom q) as [? ?];
          [by apply list_elem_of_further | by split_and!].
    + destruct H2 as [H2|(q & Hq & H2)].
      * exists (cs, ce). destruct (Hfrom (cs, ce)) as [? ?];
          [apply list_elem_of_here | by split_and!].
      * exists q. destruct (Hfrom q) as [? ?];
          [by apply list_elem_of_further | by split_and!].
  - pose proof (sweep_length rest cs ce). simpl in Hlen. lia.
Qed.

(** ** Parser: the two ownership maps agree *)

Lemma consistent_bind_one (s2c : gmap Z (gset Z)) (c2s : gmap Z Z) sid cid :
  is_Some (s2c !! sid) →
  (∀ owner, c2s !! cid = Some owner → owner = sid) →
  consistent s2c c2s →
  consistent (alter (λ cs, cs ∪ {[cid]}) sid s2c) (<[cid := sid]> c2s).
Proof.
  intros [cs0 Hcs0] Hown Hcons c s.
  destruct (decide (cid = c)) as [->|Hc].
  - rewrite lookup_insert_eq. split.
    + intros [= <-]. exists (cs0 ∪ {[c]}).
      rewrite lookup_alter_eq, Hcs0. split; [done|].
      apply elem_of_union. right. by apply elem_of_singleton.
    + intros (cs & Hl & Hin). destruct (decide (sid = s)) as [->|Hs]; [done|].
      rewrite lookup_alter_ne in Hl by done.
      assert (c2s !! c = Some s) as Hl' by (apply Hcons; eauto).
      by rewrite (Hown _ Hl').
  - rewrite lookup_insert_ne by done. rewrite (Hcons c s).
    destruct (decide (sid = s)) as [->|Hs].
    + rewrite lookup_alter_eq, Hcs0. simpl. split.
      * intros (cs & [= <-] & Hin). exists (cs0 ∪ {[cid]}). split; [done|].
        apply elem_of_union. by left.
      * intros (cs & [= <-] & Hin). exists cs0. split; [done|].
        apply elem_of_union in Hin as [Hin|Hin%elem_of_singleton]; [done|].
        by destruct Hc.
    + by rewrite lookup_alter_ne by done.
Qed.

Lemma bind_chargers_consistent sid cids : ∀ s2c c2s s2c' c2s',
  is_Some (s2c !! sid) → consistent s2c c2s →
  bind_chargers sid cids s2c c2s = Ok (s2c', c2s') →
  consistent s2c' c2s'.
Proof.
  induction cids as [|cid rest IH]; intros s2c c2s s2c' c2s' Hsome Hcons Hbind.
  - by injection Hbind as <- <-.
  - assert (Hown : ∀ owner, c2s !! cid = Some owner → owner = sid).
    { intros owner Hl. simpl in Hbind. rewrite Hl in Hbind.
      case_bool_decide as Hne; [done|]. by destruct (decide (owner = sid)). }
    rewrite bind_chargers_head in Hbind by done.
    apply (IH _ _ _ _) in Hbind; [done| |by apply consistent_bind_one].
    destruct Hsome as [cs Hcs]. rewrite lookup_alter_eq, Hcs. by eexists.
Qed.

Lemma consistent_new_station (s2c : gmap Z (gset Z)) (c2s : gmap Z Z) sid :
  s2c !! sid = None → consistent s2c c2s → consistent (<[sid := ∅]> s2c) c2s.
Proof.
  intros Hnone Hcons c s. rewrite (Hcons c s).
  destruct (decide (sid = s)) as [->|Hs].
  - rewrite lookup_insert_eq, Hnone. split.
    + by intros (cs & ? & _).
    + intros (cs & [= <-] & Hin). by apply not_elem_of_empty in Hin.
  - by rewrite lookup_insert_ne by done.
Qed.

Lemma station_line_consistent st ln st' :
  consistent (station_to_chargers st) (charger_to_station st) →
  station_line st ln = Ok st' →
  consistent (station_to_chargers st') (charger_to_station st').
Proof.
  intros Hcons. unfold station_line.
  destruct (Py.split ln) as [|p0 ptail]; [by intros [= <-]|].
  destruct (Py.int p0) as [sid|]; [|done].
  destruct (charger_ids_of ln ptail []) as [cids|e]; [|done]. simpl.
  destruct (bind_chargers sid cids _ _) as [[s2c' c2s']|e] eqn:Hbind; [|done].
  simpl. intros [= <-]. simpl.
  apply (bind_chargers_consistent _ _ _ _ _ _) in Hbind; [done| |].
  - destruct (station_to_chargers st !! sid) as [cs|] eqn:Hl.
    + by rewrite Hl.
    + by rewrite lookup_insert_eq.
  - destruct (station_to_chargers st !! sid) as [cs|] eqn:Hl; [done|].
    by apply consistent_new_station.
Qed.

Lemma report_line_keeps_owners st ln st' :
  report_line st ln = Ok st' → charger_to_station st' = charger_to_station st.
Proof.
  unfold report_line.
  destruct (Py.split ln) as [|p0 ptail]; [by intros [= <-]|].
  destruct (Py.startswith p0 "["); [by intros [= <-]|].
  destruct ptail as [|f1 [|f2 [|f3 [|f4 ptail]]]]; try done.
  destruct (Py.int p0); [|done].
  destruct (Py.int f1); [|by destruct (Py.int f2)].
  destruct (Py.int f2); [|done].
  case_bool_decide; [done|]. by intros [= <-].
Qed.

Lemma step_consistent st ln st' :
  consistent (station_to_chargers st) (charger_to_station st) →
  step st ln = Ok st' →
  consistent (station_to_chargers st') (charger_to_station st').
Proof.
  intros Hcons. unfold step.
  case_bool_decide; [by intros [= <-]|].
  destruct (Py.startswith ln "#"); [by intros [= <-]|].
  case_bool_decide; [by intros [= <-]|].
  case_bool_decide; [by intros [= <-]|].
  case_bool_decide; [by apply station_line_consistent|].
  case_bool_decide; [|by intros [= <-]].
  intros Hrep. destruct (report_line_keeps _ _ _ Hrep) as [_ ->].
  by rewrite (report_line_keeps_owners _ _ _ Hrep).
Qed.

Lemma loop_consistent lines : ∀ st st',
  consistent (station_to_chargers st) (charger_to_station st) →
  loop lines st = Ok st' →
  consistent (station_to_chargers st') (charger_to_station st').
Proof.
  induction lines as [|ln lines IH]; intros st st' Hcons Hloop.
  - by injection Hloop as <-.
  - simpl in Hloop. destruct (step st ln) as [st1|e] eqn:Hstep; [|done].
    simpl in Hloop. eapply IH; [|exact Hloop]. by eapply step_consistent.
Qed.

(** After a successful parse the two ownership maps agree: a charger is
    mapped to a station exactly when it is in that station's set.  Hence no
    charger is in the sets of two different stations. *)
Theorem ownership_maps_agree (raw : list string) (st : pstate) :
  parse_lines raw = Ok st →
  (∀ cid sid, charger_to_station st !! cid = Some sid
     ↔ ∃ cs, station_to_chargers st !! sid = Some cs ∧ cid ∈ cs)
  ∧ (∀ sid1 sid2 cs1 cs2 cid,
       station_to_chargers st !! sid1 = Some cs1 →
       station_to_chargers st !! sid2 = Some cs2 →
       cid ∈ cs1 → cid ∈ cs2 → sid1 = sid2).
Proof.
  intros Hparse.
  assert (Hcons : consistent (station_to_chargers st) (charger_to_station st)).
  { apply (loop_consistent (Py.strip <$> raw) initial st); [|exact Hparse].
    intros c s. simpl. rewrite !lookup_empty. split; [done|].
    by intros (cs & ? & _). }
  split; [exact Hcons|].
  intros sid1 sid2 cs1 cs2 cid H1 H2 Hin1 Hin2.
  assert (charger_to_station st !! cid = Some sid1) as E1 by (apply Hcons; eauto).
  assert (charger_to_station st !! cid = Some sid2) as E2 by (apply Hcons; eauto).
  congruence.
Qed.

Lemma ownership_maps_agree_witness :
  ({[10 := 1; 11 := 1; 20 := 2]} : gmap Z Z) !! 11 = Some 1
  ↔ ∃ cs, ({[1 := {[10; 11]}; 2 := {[20]}]} : gmap Z (gset Z)) !! 1 = Some cs
          ∧ 11 ∈ cs.
Proof.
  refine (proj1 (ownership_maps_agree ["[Stations]"; "1 10"; "2 20"; "1 11 10"]
    {| state := 1;
       station_to_chargers := {[1 := {[10; 11]}; 2 := {[20]}]};
       charger_to_station := {[10 := 1; 11 := 1; 20 := 2]};
       reports := ∅ |} _) 11 1).
  vm_compute. reflexivity.
Defined.

(** ** Parser: the report map *)

Lemma report_line_tokens st ln entry :
  report_tokens ln = Some entry →
  report_line st ln
  = Ok {| state := state st;
          station_to_chargers := station_to_chargers st;
          charger_to_station := charger_to_station st;
          reports := apply_report (reports st) entry |}.
Proof.
  unfold report_tokens, report_line, apply_report.
  destruct (Py.split ln) as [|f0 [|f1 [|f2 [|f3 [|f4 ptail]]]]]; try done.
  destruct (Py.startswith f0 "["); [done|].
  destruct (Py.int f0) as [cid|]; [|done].
  destruct (Py.int f1) as [start|]; [|done].
  destruct (Py.int f2) as [end_|]; [|done].
  destruct (decide (Py.lower f3 = "true")) as [Ht|Ht].
  - rewrite (bool_decide_eq_true_2 _ Ht). intros [= <-].
    rewrite bool_decide_eq_false_2 by tauto. done.
  - rewrite (bool_decide_eq_false_2 _ Ht).
    case_bool_decide as Hf; [|done]. intros [= <-].
    rewrite bool_decide_eq_false_2 by tauto. done.
Qed.

Lemma report_line_no_tokens st ln st' :
  report_tokens ln = None → report_line st ln = Ok st' → st' = st.
Proof.
  unfold report_tokens, report_line.
  destruct (Py.split ln) as [|f0 [|f1 [|f2 [|f3 [|f4 ptail]]]]];
    try (intros _; destruct (Py.startswith _ "["); by intros [= <-]).
  { by intros _ [= <-]. }
  destruct (Py.startswith f0 "["); [by intros _ [= <-]|].
  destruct (Py.int f0) as [cid|]; [|done].
  destruct (Py.int f1) as [start|]; [|by destruct (Py.int f2)].
  destruct (Py.int f2) as [end_|]; [|done].
  destruct (decide (Py.lower f3 = "true")) as [Ht|Ht].
  - by rewrite (bool_decide_eq_true_2 _ Ht).
  - rewrite (bool_decide_eq_false_2 _ Ht).
    case_bool_decide as Hf; [done|]. intros _.
    by rewrite bool_decide_eq_true_2.
Qed.

Lemma station_line_keeps st ln st' :
  station_line st ln = Ok st' → state st' = state st ∧ reports st' = reports st.
Proof.
  unfold station_line.
  destruct (Py.split ln) as [|p0 ptail]; [by intros [= <-]|].
  destruct (Py.int p0) as [sid|]; [|done].
  destruct (charger_ids_of ln ptail []) as [cids|e]; [|done]. simpl.
  destruct (bind_chargers sid cids _ _) as [[s2c' c2s']|e]; [|done].
  simpl. by intros [= <-].
Qed.

Lemma step_reports st ln st' :
  step st ln = Ok st' →
  reports st' = foldl apply_report (reports st) (report_entries (state st) [ln])
  ∧ ∀ rest, report_entries (state st) (ln :: rest)
            = report_entries (state st) [ln] ++ report_entries (state st') rest.
Proof.
  intros Hstep. unfold step in Hstep. simpl.
  case_bool_decide; [by injection Hstep as <-|].
  destruct (Py.startswith ln "#"); [by injection Hstep as <-|].
  case_bool_decide; [by injection Hstep as <-|].
  case_bool_decide; [by injection Hstep as <-|].
  case_bool_decide.
  { by destruct (station_line_keeps _ _ _ Hstep) as [-> ->]. }
  case_bool_decide; [|by injection Hstep as <-].
  destruct (report_tokens ln) as [entry|] eqn:Htok.
  - rewrite (report_line_tokens st ln entry Htok) in Hstep.
    by injection Hstep as <-.
  - by rewrite (report_line_no_tokens st ln st' Htok Hstep).
Qed.

Lemma loop_reports lines : ∀ st0 st,
  loop lines st0 = Ok st →
  reports st = foldl apply_report (reports st0) (report_entries (state st0) lines).
Proof.
  induction lines as [|ln lines IH]; intros st0 st Hloop.
  - by injection Hloop as <-.
  - simpl in Hloop. destruct (step st0 ln) as [st1|e] eqn:Hstep; [|done].
    simpl in Hloop. destruct (step_reports _ _ _ Hstep) as [Hr Hm].
    rewrite Hm, foldl_app, <- Hr. by apply IH.
Qed.

Lemma reports_of_cons cid entry entries :
  reports_of cid (entry :: entries)
  = if decide (entry.1 = cid) then entry.2 :: reports_of cid entries
    else reports_of cid entries.
Proof.
  unfold reports_of. rewrite filter_cons. by destruct (decide (entry.1 = cid)).
Qed.

Lemma fold_reports_lookup entries : ∀ (m : gmap Z (list report)) cid,
  foldl apply_report m entries !! cid
  = if decide (reports_of cid entries = []) then m !! cid
    else Some (default [] (m !! cid) ++ reports_of cid entries).
Proof.
  induction entries as [|[c r] entries IH]; intros m cid; [done|].
  simpl. rewrite IH, reports_of_cons. unfold apply_report. simpl.
  destruct (decide (c = cid)) as [->|Hne].
  - rewrite lookup_insert_eq. simpl.
    destruct (decide (r :: reports_of cid entries = [])) as [|_]; [done|].
    destruct (decide (reports_of cid entries = [])) as [->|_].
    + done.
    + by rewrite <- app_assoc.
  - by rewrite lookup_insert_ne by done.
Qed.

(** After a successful parse the report list of a charger holds exactly the
    reports of the well-formed report-mode lines that name it, in document
    order; a charger named by no such line has no entry, so no list in the
    map is empty. *)
Theorem reports_in_document_order (raw : list string) (st : pstate) (cid : Z) :
  parse_lines raw = Ok st →
  reports st !! cid
  = (if decide (reports_of cid (report_entries 0 (Py.strip <$> raw)) = [])
     then None
     else Some (reports_of cid (report_entries 0 (Py.strip <$> raw))))
  ∧ reports st !! cid ≠ Some [].
Proof.
  intros Hparse. unfold parse_lines in Hparse.
  rewrite (loop_reports _ _ _ Hparse), fold_reports_lookup.
  change (reports initial) with (∅ : gmap Z (list report)).
  change (state initial) with 0. rewrite lookup_empty. simpl.
  split; [done|]. destruct (decide _); congruence.
Qed.

Lemma reports_in_document_order_witness :
  reports
    {| state := 2; station_to_chargers := ∅; charger_to_station := ∅;
       reports := {[7 := [(5, 9, false); (0, 3, true)]; 8 := [(1, 2, true)]]} |}
    !! 7
  = (if decide (reports_of 7 (report_entries 0 (Py.strip <$>
          ["[Charger Availability Reports]"; "7 5 9 false"; "8 1 2 true";
           "7 0 3 TRUE"])) = [])
     then None
     else Some (reports_of 7 (report_entries 0 (Py.strip <$>
          ["[Charger Availability Reports]"; "7 5 9 false"; "8 1 2 true";
           "7 0 3 TRUE"])))).
Proof.
  refine (proj1 (reports_in_document_order
    ["[Charger Availability Reports]"; "7 5 9 false"; "8 1 2 true"; "7 0 3 TRUE"]
    _ 7 _)).
  vm_compute. reflexivity.
Defined.

(** ** Parser: modes and errors *)

Lemma step_no_mode st ln :
  state st ≠ 1 → state st ≠ 2 → no_marker ln → step st ln = Ok st.
Proof.
  intros H1 H2 [Hm1 Hm2]. unfold step.
  case_bool_decide; [done|]. destruct (Py.startswith ln "#"); [done|].
  rewrite (bool_decide_eq_false_2 _ Hm1), (bool_decide_eq_false_2 _ Hm2).
  by rewrite (bool_decide_eq_false_2 _ H1), (bool_decide_eq_false_2 _ H2).
Qed.

Lemma loop_no_mode lines st :
  state st ≠ 1 → state st ≠ 2 → Forall no_marker lines → loop lines st = Ok st.
Proof.
  intros H1 H2. induction 1 as [|ln lines Hln Hall IH]; [done|].
  simpl. by rewrite step_no_mode.
Qed.

(** Whatever stands before the first section marker is ignored, malformed
    or not: dropping those lines does not change the result of the parse.
    In particular a document without any marker parses to the empty
    model. *)
Theorem lines_before_first_marker_ignored (pre rest : list string) :
  Forall no_marker (Py.strip <$> pre) →
  parse_lines (pre ++ rest) = parse_lines rest
  ∧ parse_lines pre = Ok initial.
Proof.
  intros Hpre. unfold parse_lines.
  assert (Hloop : loop (Py.strip <$> pre) initial = Ok initial)
    by (by apply loop_no_mode).
  split; [|done]. by rewrite fmap_app, loop_app, Hloop.
Qed.

Lemma lines_before_first_marker_ignored_witness :
  parse_lines (["1 2 x"; "not a report"; "  "] ++ ["[Stations]"; "3 4"])
  = parse_lines ["[Stations]"; "3 4"]
  ∧ parse_lines ["1 2 x"; "not a report"; "  "] = Ok initial.
Proof.
  apply lines_before_first_marker_ignored.
  simpl. repeat apply Forall_cons_2; [..|apply Forall_nil_2]; by vm_compute.
Defined.

Lemma charger_ids_of_err ln toks : ∀ acc e,
  charger_ids_of ln toks acc = Err e → e = InvalidChargerId ln.
Proof.
  induction toks as [|tok toks IH]; intros acc e; simpl; [done|].
  destruct (Py.int tok); [apply IH | by intros [= <-]].
Qed.

Lemma step_err st ln e :
  step st ln = Err e →
  quoted_line e = Some ln ∨ ∃ cid, e = MultipleStations cid.
Proof.
  unfold step.
  case_bool_decide; [done|]. destruct (Py.startswith ln "#"); [done|].
  case_bool_decide; [done|]. case_bool_decide; [done|].
  case_bool_decide.
  - unfold station_line.
    destruct (Py.split ln) as [|p0 ptail]; [done|].
    destruct (Py.int p0) as [sid|]; [|intros [= <-]; by left].
    destruct (charger_ids_of ln ptail []) as [cids|e'] eqn:Hids.
    + simpl.
      destruct (bind_chargers_cases sid cids
                  match station_to_chargers st !! sid with
                  | None => <[sid := ∅]> (station_to_chargers st)
                  | Some _ => station_to_chargers st
                  end (charger_to_station st))
        as [[_ [c2s' ->]]|(c & o & _ & _ & _ & ->)]; [done|].
      simpl. intros [= <-]. right. by exists c.
    + simpl. intros [= <-]. rewrite (charger_ids_of_err _ _ _ _ Hids). by left.
  - case_bool_decide; [|done]. unfold report_line.
    destruct (Py.split ln) as [|p0 ptail]; [done|].
    destruct (Py.startswith p0 "["); [done|].
    destruct ptail as [|f1 [|f2 [|f3 [|f4 ptail]]]];
      try (intros [= <-]; by left).
    destruct (Py.int p0); [|intros [= <-]; by left].
    destruct (Py.int f1); [|destruct (Py.int f2); intros [= <-]; by left].
    destruct (Py.int f2); [|intros [= <-]; by left].
    case_bool_decide; [intros [= <-]; by left | done].
Qed.

Lemma loop_err lines : ∀ st e,
  loop lines st = Err e →
  ∃ pre ln post st', lines = pre ++ ln :: post
    ∧ loop pre st = Ok st' ∧ step st' ln = Err e.
Proof.
  induction lines as [|ln lines IH]; intros st e Hloop; [done|].
  simpl in Hloop. destruct (step st ln) as [st1|e1] eqn:Hstep.
  - simpl in Hloop. destruct (IH _ _ Hloop) as (pre & l & post & st' & -> & Hpre & Hl).
    exists (ln :: pre), l, post, st'. split_and!; auto.
    simpl. by rewrite Hstep.
  - simpl in Hloop. injection Hloop as <-.
    by exists [], ln, lines, st.
Qed.

(** A failed parse stops at one line of the document: the lines before it
    were accepted, and the exception either quotes that stripped line or is
    the multi-station error.  Reading the lines never produces the file
    error. *)
Theorem parse_error_quotes_line (raw : list string) (e : exn) :
  parse_lines raw = Err e →
  ∃ pre ln post st,
    Py.strip <$> raw = pre ++ ln :: post
    ∧ loop pre initial = Ok st
    ∧ step st ln = Err e
    ∧ (quoted_line e = Some ln ∨ ∃ cid, e = MultipleStations cid)
    ∧ ∀ msg, e ≠ OSError msg.
Proof.
  intros Hparse. destruct (loop_err _ _ _ Hparse) as (pre & ln & post & st & Hl & Hpre & Hstep).
  exists pre, ln, post, st. split_and!; auto.
  - by apply (step_err st).
  - intros msg ->. by destruct (step_err _ _ _ Hstep) as [?|[? ?]].
Qed.

Lemma parse_error_quotes_line_witness :
  ∃ pre ln post st,
    Py.strip <$> ["[Stations]"; "  1 x  "; "2 3"] = pre ++ ln :: post
    ∧ loop pre initial = Ok st
    ∧ step st ln = Err (InvalidChargerId "1 x")
    ∧ (quoted_line (InvalidChargerId "1 x") = Some ln
       ∨ ∃ cid, InvalidChargerId "1 x" = MultipleStations cid)
    ∧ ∀ msg, InvalidChargerId "1 x" ≠ OSError msg.
Proof.
  apply parse_error_quotes_line. vm_compute. reflexivity.
Defined.

(** The first error wins: once a prefix of the document fails to parse,
    every document that starts with that prefix fails with the same
    exception, whatever follows. *)
Theorem first_error_wins (pre post : list string) (e : exn) :
  parse_lines pre = Err e → parse_lines (pre ++ post) = Err e.
Proof.
  unfold parse_lines. intros Hpre. by rewrite fmap_app, loop_app, Hpre.
Qed.

Lemma first_error_wins_witness :
  parse_lines (["[Charger Availability Reports]"; "1 2 3"] ++ ["[Stations]"; "x"])
  = Err (InvalidReportFields "1 2 3").
Proof.
  apply first_error_wins. vm_compute. reflexivity.
Defined.

(** ** Program: exit status and sentinel *)

Lemma has_space_append a b : has_space (a +:+ " " +:+ b) = true.
Proof.
  induction a as [|c a IH]; simpl; [done|].
  rewrite IH. apply orb_true_r.
Qed.

(** With any number of arguments other than one path the program prints
    only the usage line, on standard error, and returns 2 without looking
    at any file.  With one path the status is 0 or 1; the status is 1
    exactly when standard output is the single line [error], and 0 exactly
    when parsing succeeded, in which case standard error is empty and every
    output line holds a space, so it cannot be taken for the sentinel. *)
Theorem exit_status_cases (fs : string → file) (argv : list string) :
  (length argv ≠ 2%nat →
     main fs argv
     = {| stdout := [];
          stderr := ["Usage: station_uptime.py <input_file_path>"];
          exit_code := 2 |})
  ∧ (∀ prog path, argv = [prog; path] →
       (exit_code (main fs argv) = 0 ∨ exit_code (main fs argv) = 1)
       ∧ (exit_code (main fs argv) = 1 ↔ stdout (main fs argv) = ["error"])
       ∧ (exit_code (main fs argv) = 0 ↔ is_ok (parse_input fs path))
       ∧ (exit_code (main fs argv) = 0 →
            stderr (main fs argv) = []
            ∧ Forall (λ line, has_space line = true) (stdout (main fs argv)))).
Proof.
  split.
  - intros Hlen. destruct argv as [|a [|b [|c argv]]]; simpl in *; done.
  - intros prog path ->.
    destruct (parse_input fs path) as [[[s2c c2s] reps]|e] eqn:Hparse.
    + rewrite (main_ok _ _ _ _ _ _ Hparse). simpl.
      assert (Hlines : Forall (λ line, has_space line = true)
                (emit (compute_station_uptime s2c reps)
                   <$> sorted (elements (dom (compute_station_uptime s2c reps))))).
      { apply Forall_fmap, Forall_forall. intros sid _. apply has_space_append. }
      split_and!; auto; try done.
      split; [done|]. intros Hout. rewrite Hout in Hlines.
      apply Forall_cons in Hlines as [Hbad _]. by vm_compute in Hbad.
    + rewrite (main_err _ _ _ _ Hparse). simpl. split_and!; auto; done.
Qed.

Lemma exit_status_cases_witness :
  main (λ _, FileError "unused") ["prog"; "a"; "b"]
  = {| stdout := [];
       stderr := ["Usage: station_uptime.py <input_file_path>"];
       exit_code := 2 |}.
Proof.
  apply (proj1 (exit_status_cases (λ _, FileError "unused") ["prog"; "a"; "b"])).
  simpl. lia.
Defined.

(** ** Calculator: the covered duration counts covered slots *)

Lemma covered_b_covers l t : covered_b l t = true ↔ covers l t.
Proof.
  unfold covered_b, covers. rewrite existsb_exists. split.
  - intros (p & Hin & Hb). exists p. split; [by apply list_elem_of_In|].
    by apply bool_decide_eq_true in Hb.
  - intros (p & Hin & Hi). exists p. split; [by apply list_elem_of_In|].
    by apply bool_decide_eq_true.
Qed.

Lemma count_from_ext P Q t n :
  (∀ u, P u = Q u) → count_from P t n = count_from Q t n.
Proof.
  intros Hext. revert t. induction n as [|n IH]; intros t; simpl; [done|].
  by rewrite Hext, IH.
Qed.

Lemma count_from_or P Q n : ∀ t,
  (∀ u, P u = true → Q u = true → False) →
  count_from (λ u, P u || Q u) t n = count_from P t n + count_from Q t n.
Proof.
  induction n as [|n IH]; intros t Hdis; simpl; [done|].
  rewrite IH by done. specialize (Hdis t).
  destruct (P t), (Q t); simpl; first [lia | by destruct Hdis].
Qed.

Lemma count_from_le P Q n : ∀ t,
  (∀ u, P u = true → Q u = true) → count_from P t n ≤ count_from Q t n.
Proof.
  induction n as [|n IH]; intros t Hsub; simpl; [done|].
  specialize (IH (t + 1) Hsub). specialize (Hsub t).
  destruct (P t), (Q t); simpl; first [lia | by specialize (Hsub eq_refl)].
Qed.

Lemma count_from_interval p n : ∀ t,
  count_from (inside_b p) t n
  = Z.max 0 (Z.min p.2 (t + Z.of_nat n) - Z.max p.1 t).
Proof.
  induction n as [|n IH]; intros t; simpl count_from.
  - lia.
  - rewrite IH. unfold inside_b. case_bool_decide; lia.
Qed.

Lemma separated_counts l ws we :
  StronglySorted gap l → Forall proper l →
  clipped_total l ws we = covered_slots l ws we.
Proof.
  unfold covered_slots. induction l as [|p l IH]; intros Hs Hp.
  - generalize (Z.to_nat (we - ws)). intros n. revert ws.
    induction n as [|n IHn]; intros ws; simpl; [done|].
    specialize (IHn (ws + 1)). unfold clipped_total in *. simpl in *. lia.
  - apply StronglySorted_inv in Hs as [Hs Hhd].
    apply Forall_cons in Hp as [Hpp Hp].
    rewrite clipped_total_cons, IH by done.
    change (covered_b (p :: l)) with (λ u, inside_b p u || covered_b l u).
    rewrite count_from_or.
    + rewrite count_from_interval. lia.
    + intros u Hin Hcov. apply bool_decide_eq_true in Hin.
      apply covered_b_covers in Hcov as (q & Hq & Hq1 & Hq2).
      rewrite Forall_forall in Hhd. specialize (Hhd q Hq).
      unfold gap in Hhd. lia.
Qed.

Lemma covers_filter_proper (k : list (Z * Z)) t :
  covers (filter (λ p : Z * Z, p.2 > p.1) k) t ↔ covers k t.
Proof.
  unfold covers. split.
  - intros (p & Hin & Hi). apply list_elem_of_filter in Hin as [_ Hin]. eauto.
  - intros (p & Hin & Hi). exists p. split; [|done].
    apply list_elem_of_filter. split; [|done]. unfold inside in Hi. lia.
Qed.

(** The covered duration of the merged up-intervals is the number of unit
    slots of the window that lie in at least one input interval: overlaps are
    counted once and what is outside the window is not counted.  Hence
    adding intervals never lowers it. *)
Theorem up_time_counts_covered_slots (l : list (Z * Z)) (ws we : Z) :
  clipped_total (merge_intervals l) ws we = covered_slots l ws we
  ∧ ∀ l', l ⊆ l' →
      clipped_total (merge_intervals l) ws we
      ≤ clipped_total (merge_intervals l') ws we.
Proof.
  assert (Hcount : ∀ k, clipped_total (merge_intervals k) ws we
                        = covered_slots k ws we).
  { intros k. destruct (merge_intervals_spec k) as (Hg & Hp & Hc).
    rewrite separated_counts by done. unfold covered_slots.
    apply count_from_ext. intros u.
    apply eq_true_iff_eq. by rewrite !covered_b_covers, Hc, covers_filter_proper. }
  split; [apply Hcount|].
  intros l' Hsub. rewrite !Hcount. unfold covered_slots.
  apply count_from_le. intros u. rewrite !covered_b_covers.
  intros (p & Hin & Hi). exists p. split; [by apply Hsub | done].
Qed.

Lemma up_time_counts_covered_slots_witness :
  clipped_total (merge_intervals [(0, 4); (2, 6)]) 1 9
  ≤ clipped_total (merge_intervals [(7, 8); (2, 6); (0, 4)]) 1 9.
Proof.
  apply (proj2 (up_time_counts_covered_slots [(0, 4); (2, 6)] 1 9)).
  intros p Hp. apply elem_of_cons in Hp as [->|Hp%list_elem_of_singleton].
  - do 2 apply list_elem_of_further. apply list_elem_of_here.
  - subst p. apply list_elem_of_further, list_elem_of_here.
Defined.

(** ** Parser: which error a malformed line raises *)

Lemma charger_ids_of_bad ln toks : ∀ acc,
  (∃ tok, tok ∈ toks ∧ Py.int tok = None) →
  charger_ids_of ln toks acc = Err (InvalidChargerId ln).
Proof.
  induction toks as [|t toks IH]; intros acc (tok & Hin & Hbad).
  - by apply elem_of_nil in Hin.
  - simpl. destruct (Py.int t) as [n|] eqn:Ht; [|done].
    apply IH. exists tok. split; [|done].
    apply elem_of_cons in Hin as [->|Hin]; [congruence | done].
Qed.

Lemma run_stops_at raw_pre raw_post r st e fs prog path text :
  parse_lines raw_pre = Ok st → step st (Py.strip r) = Err e →
  fs path = FileText text → Py.readlines text = raw_pre ++ r :: raw_post →
  main fs [prog; path]
  = {| stdout := ["error"]; stderr := ["Error: " +:+ message e]; exit_code := 1 |}.
Proof.
  intros Hpre Hstep Hfs Htext. apply main_err.
  apply (parse_input_err _ _ text); [done|]. rewrite Htext.
  change (raw_pre ++ r :: raw_post) with (raw_pre ++ [r] ++ raw_post).
  rewrite app_assoc. apply first_error_prefix.
  by rewrite (parse_lines_snoc _ r _ Hpre).
Qed.

(** A station-mode line with a token that [int] refuses ends the run with
    [error] on standard output, status 1, and one line on standard error
    that quotes the stripped line: the station-id message when the first
    token is refused, the charger-id message otherwise.  The tokens are all
    converted before any ownership is looked at, so this holds whatever the
    earlier lines bound, also when the line names a charger of another
    station. *)
Theorem station_line_errors
    (raw_pre raw_post : list string) (r p0 : string) (ptail : list string)
    (st : pstate) (fs : string → file) (prog path text : string) :
  parse_lines raw_pre = Ok st → state st = 1 → data_line (Py.strip r) →
  Py.split (Py.strip r) = p0 :: ptail →
  fs path = FileText text → Py.readlines text = raw_pre ++ r :: raw_post →
  (Py.int p0 = None →
     main fs [prog; path]
     = {| stdout := ["error"];
          stderr := ["Error: Invalid station line (station id): " +:+ Py.strip r];
          exit_code := 1 |})
  ∧ (is_Some (Py.int p0) → (∃ tok, tok ∈ ptail ∧ Py.int tok = None) →
     main fs [prog; path]
     = {| stdout := ["error"];
          stderr := ["Error: Invalid charger id on station line: " +:+ Py.strip r];
          exit_code := 1 |}).
Proof.
  intros Hpre Hmode Hdata Hs Hfs Htext.
  assert (Hstep : step st (Py.strip r) = station_line st (Py.strip r)).
  { rewrite step_data_line by done. by rewrite bool_decide_eq_true_2. }
  unfold station_line in Hstep. rewrite Hs in Hstep. split.
  - intros Hbad. rewrite Hbad in Hstep.
    by rewrite (run_stops_at _ _ _ _ _ _ _ _ _ Hpre Hstep Hfs Htext).
  - intros [sid Hsid] Hbad. rewrite Hsid in Hstep.
    rewrite (charger_ids_of_bad _ ptail [] Hbad) in Hstep. simpl in Hstep.
    by rewrite (run_stops_at _ _ _ _ _ _ _ _ _ Hpre Hstep Hfs Htext).
Qed.

Lemma station_line_errors_witness :
  main (λ _, FileText ("[Stations]" +:+ nl +:+ "1 5" +:+ nl +:+ " 2 5 x" +:+ nl))
    ["prog"; "in"]
  = {| stdout := ["error"];
       stderr := ["Error: Invalid charger id on station line: "
                  +:+ Py.strip (String.append " 2 5 x" nl)];
       exit_code := 1 |}.
Proof.
  refine (proj2 (station_line_errors
    [String.append "[Stations]" nl; String.append "1 5" nl] []
    (String.append " 2 5 x" nl) "2" ["5"; "x"]
    {| state := 1; station_to_chargers := {[1 := {[5]}]};
       charger_to_station := {[5 := 1]}; reports := ∅ |}
    (λ _, FileText ("[Stations]" +:+ nl +:+ "1 5" +:+ nl +:+ " 2 5 x" +:+ nl))
    "prog" "in" _ _ _ _ _ _ _) _ _).
  - vm_compute. reflexivity.
  - reflexivity.
  - unfold data_line. split_and!; by vm_compute.
  - vm_compute. reflexivity.
  - reflexivity.
  - vm_compute. reflexivity.
  - by exists 2.
  - exists "x". split; [apply list_elem_of_further, list_elem_of_here|].
    vm_compute. reflexivity.
Defined.

(** A report-mode line whose first token does not begin with a bracket and
    that is not well formed ends the run with [error] on standard output,
    status 1, and one line on standard error that quotes the stripped line.
    The checks run in a fixed order: a field count other than four gives the
    field-count message whatever the fields are; with four fields, a token
    that [int] refuses among the first three gives the numeric message
    whatever the flag is; only then a flag that spells neither [true] nor
    [false] in any letter case gives the flag message. *)
Theorem report_line_errors
    (raw_pre raw_post : list string) (r p0 : string) (ptail : list string)
    (st : pstate) (fs : string → file) (prog path text : string) :
  parse_lines raw_pre = Ok st → state st = 2 → data_line (Py.strip r) →
  Py.split (Py.strip r) = p0 :: ptail → Py.startswith p0 "[" = false →
  fs path = FileText text → Py.readlines text = raw_pre ++ r :: raw_post →
  (length ptail ≠ 3%nat →
     main fs [prog; path]
     = {| stdout := ["error"];
          stderr := ["Error: Invalid report line (need 4 fields): " +:+ Py.strip r];
          exit_code := 1 |})
  ∧ (∀ f1 f2 f3, ptail = [f1; f2; f3] →
       (Py.int p0 = None ∨ Py.int f1 = None ∨ Py.int f2 = None →
        main fs [prog; path]
        = {| stdout := ["error"];
             stderr := ["Error: Invalid numeric field in report line: "
                        +:+ Py.strip r];
             exit_code := 1 |})
       ∧ (is_Some (Py.int p0) → is_Some (Py.int f1) → is_Some (Py.int f2) →
          ¬ spells "true" f3 → ¬ spells "false" f3 →
          main fs [prog; path]
          = {| stdout := ["error"];
               stderr := ["Error: Invalid up flag (must be true/false): "
                          +:+ Py.strip r];
               exit_code := 1 |})).
Proof.
  intros Hpre Hmode Hdata Hs Hb Hfs Htext.
  assert (Hstep : step st (Py.strip r) = report_line st (Py.strip r)).
  { rewrite step_data_line by done.
    rewrite bool_decide_eq_false_2 by lia. by rewrite bool_decide_eq_true_2. }
  unfold report_line in Hstep. rewrite Hs, Hb in Hstep. split.
  - intros Hlen.
    assert (Herr : step st (Py.strip r) = Err (InvalidReportFields (Py.strip r))).
    { rewrite Hstep. by destruct ptail as [|f1 [|f2 [|f3 [|f4 ptail]]]]. }
    by rewrite (run_stops_at _ _ _ _ _ _ _ _ _ Hpre Herr Hfs Htext).
  - intros f1 f2 f3 ->. split.
    + intros Hbad.
      assert (Herr : step st (Py.strip r) = Err (InvalidNumericField (Py.strip r))).
      { rewrite Hstep. destruct Hbad as [H|[H|H]]; rewrite H.
        - done.
        - by destruct (Py.int p0), (Py.int f2).
        - by destruct (Py.int p0), (Py.int f1). }
      by rewrite (run_stops_at _ _ _ _ _ _ _ _ _ Hpre Herr Hfs Htext).
    + intros [cid H0] [start H1] [end_ H2] Ht Hf.
      rewrite H0, H1, H2 in Hstep.
      rewrite bool_decide_eq_true_2 in Hstep
        by (by rewrite lower_true, lower_false).
      by rewrite (run_stops_at _ _ _ _ _ _ _ _ _ Hpre Hstep Hfs Htext).
Qed.

Lemma report_line_errors_witness :
  main (λ _, FileText
          ("[Charger Availability Reports]" +:+ nl +:+ "1 x 3 maybe" +:+ nl))
    ["prog"; "in"]
  = {| stdout := ["error"];
       stderr := ["Error: Invalid numeric field in report line: "
                  +:+ Py.strip (String.append "1 x 3 maybe" nl)];
       exit_code := 1 |}.
Proof.
  refine (proj1 (proj2 (report_line_errors
    [String.append "[Charger Availability Reports]" nl] []
    (String.append "1 x 3 maybe" nl) "1" ["x"; "3"; "maybe"]
    {| state := 2; station_to_chargers := ∅; charger_to_station := ∅;
       reports := ∅ |}
    (λ _, FileText
            ("[Charger Availability Reports]" +:+ nl +:+ "1 x 3 maybe" +:+ nl))
    "prog" "in" _ _ _ _ _ _ _ _) "x" "3" "maybe" _) _).
  - vm_compute. reflexivity.
  - reflexivity.
  - unfold data_line. split_and!; by vm_compute.
  - vm_compute. reflexivity.
  - reflexivity.
  - reflexivity.
  - vm_compute. reflexivity.
  - reflexivity.
  - right. left. vm_compute. reflexivity.
Defined.

(** ** The integers the program prints *)

Lemma digit_val_range c d : Py.digit_val c = Some d → 0 ≤ d ≤ 9.
Proof.
  unfold Py.digit_val. destruct (_ && _)%bool eqn:Hc; [|done].
  intros [= <-]. apply andb_true_iff in Hc as [H1 H2].
  apply N.leb_le in H1, H2. lia.
Qed.

Lemma digit_count_nonneg s : 0 ≤ Py.digit_count s.
Proof.
  induction s as [|c s IH]; simpl; [done|]. destruct (Py.digit_val c); lia.
Qed.

Lemma int_digits_bound s : ∀ acc prev v,
  0 ≤ acc → Py.int_digits s acc prev = Some v →
  acc * 10 ^ Py.digit_count s ≤ v < (acc + 1) * 10 ^ Py.digit_count s.
Proof.
  induction s as [|c s IH]; intros acc prev v Hacc; simpl.
  - destruct prev; [|done]. intros [= <-]. lia.
  - pose proof (digit_count_nonneg s) as Hk.
    destruct (Py.digit_val c) as [d|] eqn:Hd.
    + pose proof (digit_val_range _ _ Hd) as Hr. intros Hv.
      apply IH in Hv; [|lia].
      rewrite Z.pow_add_r, Z.pow_1_r by lia.
      assert (0 < 10 ^ Py.digit_count s) by (apply Z.pow_pos_nonneg; lia).
      nia.
    + destruct (_ && _)%bool; [|done]. intros Hv. by apply IH in Hv.
Qed.

Lemma int_unsigned_bound s v :
  Py.int_unsigned s = Some v → 0 ≤ v < 10 ^ Py.max_str_digits.
Proof.
  unfold Py.int_unsigned. case_bool_decide as Hcap; [done|]. intros Hv.
  apply int_digits_bound in Hv; [|done].
  pose proof (digit_count_nonneg s).
  assert (10 ^ Py.digit_count s ≤ 10 ^ Py.max_str_digits)
    by (apply Z.pow_le_mono_r; lia).
  lia.
Qed.

Lemma int_bound tok n :
  Py.int tok = Some n → - 10 ^ Py.max_str_digits < n < 10 ^ Py.max_str_digits.
Proof.
  unfold Py.int.
  assert (Hplain : ∀ s, Py.int_unsigned s = Some n →
            - 10 ^ Py.max_str_digits < n < 10 ^ Py.max_str_digits).
  { intros s Hs. apply int_unsigned_bound in Hs. lia. }
  assert (Hneg : ∀ s, Z.opp <$> Py.int_unsigned s = Some n →
            - 10 ^ Py.max_str_digits < n < 10 ^ Py.max_str_digits).
  { intros s Hs. destruct (Py.int_unsigned s) as [v|] eqn:Hv; [|done].
    injection Hs as <-. apply int_unsigned_bound in Hv. lia. }
  destruct (Py.strip tok) as [|c s]; [apply Hplain|].
  destruct (decide (c = "+"%char)) as [->|Hp]; [apply Hplain|].
  destruct (decide (c = "-"%char)) as [->|Hm]; [apply Hneg|].
  destruct c as [[] [] [] [] [] [] [] []]; try apply Hplain; done.
Qed.

Lemma charger_ids_of_int ln toks : ∀ acc cids,
  charger_ids_of ln toks acc = Ok cids →
  ∀ c, c ∈ cids → c ∈ acc ∨ ∃ tok, tok ∈ toks ∧ Py.int tok = Some c.
Proof.
  induction toks as [|t toks IH]; intros acc cids; simpl.
  - intros [= <-] c Hc. by left.
  - destruct (Py.int t) as [n|] eqn:Ht; [|done]. intros Hok c Hc.
    destruct (IH _ _ Hok c Hc) as [Hin|(tok & Hin & Htok)].
    + apply elem_of_app in Hin as [Hin|Hin%list_elem_of_singleton]; [by left|].
      subst c. right. exists t. split; [apply list_elem_of_here | done].
    + right. exists tok. split; [by apply list_elem_of_further | done].
Qed.

Lemma station_tokens_bound ln sid cids :
  station_tokens ln = Some (sid, cids) →
  - 10 ^ Py.max_str_digits < sid < 10 ^ Py.max_str_digits
  ∧ ∀ c, c ∈ cids → - 10 ^ Py.max_str_digits < c < 10 ^ Py.max_str_digits.
Proof.
  unfold station_tokens.
  destruct (Py.split ln) as [|p0 ptail]; [done|].
  destruct (Py.int p0) as [n|] eqn:H0; [|done].
  destruct (charger_ids_of ln ptail []) as [ids|e] eqn:Hids; [|done].
  intros [= <- <-]. split; [by apply (int_bound p0)|].
  intros c Hc. destruct (charger_ids_of_int _ _ _ _ Hids c Hc) as [Hin|(tok & _ & Htok)].
  - by apply elem_of_nil in Hin.
  - by apply (int_bound tok).
Qed.

Lemma station_entries_tokens lines : ∀ mode entry,
  entry ∈ station_entries mode lines →
  ∃ ln, station_tokens ln = Some entry.
Proof.
  induction lines as [|ln lines IH]; intros mode entry; simpl.
  - by intros ?%elem_of_nil.
  - case_bool_decide; [apply IH|].
    destruct (Py.startswith ln "#"); [apply IH|].
    case_bool_decide; [apply IH|].
    case_bool_decide; [apply IH|].
    case_bool_decide; [|apply IH].
    destruct (station_tokens ln) as [e|] eqn:Htok; [|apply IH].
    intros [->|Hin]%elem_of_cons; [by exists ln | by apply (IH mode)].
Qed.

Lemma report_line_not_conflict st ln cid :
  report_line st ln ≠ Err (MultipleStations cid).
Proof.
  unfold report_line.
  destruct (Py.split ln) as [|p0 ptail]; [done|].
  destruct (Py.startswith p0 "["); [done|].
  destruct ptail as [|f1 [|f2 [|f3 [|f4 ptail]]]]; try done.
  destruct (Py.int p0); [|done].
  destruct (Py.int f1); [|by destruct (Py.int f2)].
  destruct (Py.int f2); [|done]. by case_bool_decide.
Qed.

Lemma station_line_conflict_charger st ln cid :
  station_line st ln = Err (MultipleStations cid) →
  ∃ sid cids, station_tokens ln = Some (sid, cids) ∧ cid ∈ cids.
Proof.
  intros Hline. destruct (station_tokens ln) as [[sid cids]|] eqn:Htok.
  - exists sid, cids. split; [done|].
    destruct (station_line_cases st ln sid cids Htok)
      as [[_ (st' & Hok & _)]|(c & o & Hin & _ & _ & Herr)]; [congruence|].
    rewrite Herr in Hline. by injection Hline as <-.
  - exfalso. unfold station_tokens in Htok. unfold station_line in Hline.
    destruct (Py.split ln) as [|p0 ptail]; [done|].
    destruct (Py.int p0) as [n|]; [|done].
    destruct (charger_ids_of ln ptail []) as [ids|e] eqn:Hids; [done|].
    simpl in Hline. by rewrite (charger_ids_of_err _ _ _ _ Hids) in Hline.
Qed.

Lemma step_conflict_charger st ln cid :
  step st ln = Err (MultipleStations cid) →
  ∃ sid cids, station_tokens ln = Some (sid, cids) ∧ cid ∈ cids.
Proof.
  unfold step.
  case_bool_decide; [done|]. destruct (Py.startswith ln "#"); [done|].
  case_bool_decide; [done|]. case_bool_decide; [done|].
  case_bool_decide; [apply station_line_conflict_charger|].
  case_bool_decide; [|done].
  intros Hrep. by destruct (report_line_not_conflict st ln cid).
Qed.

(** The program never asks [str] for an integer beyond the digit limit:
    after a successful parse every station id, which [main] prints, lies
    strictly between [-10^4300] and [10^4300], and so does the charger id
    quoted by the multi-station error. *)
Theorem printed_integers_within_limit (raw : list string) :
  (∀ st sid, parse_lines raw = Ok st →
     is_Some (station_to_chargers st !! sid) →
     - 10 ^ Py.max_str_digits < sid < 10 ^ Py.max_str_digits)
  ∧ (∀ cid, parse_lines raw = Err (MultipleStations cid) →
     - 10 ^ Py.max_str_digits < cid < 10 ^ Py.max_str_digits).
Proof.
  split.
  - intros st sid Hparse Hsome. unfold parse_lines in Hparse.
    rewrite (loop_station_sets _ _ _ Hparse), fold_entries_lookup in Hsome.
    change (station_to_chargers initial) with (∅ : gmap Z (gset Z)) in Hsome.
    rewrite lookup_empty in Hsome.
    destruct (decide _) as [Hin|]; [|by destruct Hsome].
    apply list_elem_of_fmap in Hin as ([sid' cids] & -> & Hin).
    destruct (station_entries_tokens _ _ _ Hin) as [ln Htok].
    by destruct (station_tokens_bound _ _ _ Htok).
  - intros cid Hparse.
    destruct (loop_err _ _ _ Hparse) as (pre & ln & post & st & _ & _ & Hstep).
    destruct (step_conflict_charger _ _ _ Hstep) as (sid & cids & Htok & Hin).
    destruct (station_tokens_bound _ _ _ Htok) as [_ Hb]. by apply Hb.
Qed.
